(** * blvm-mesh: a shallow embedding of the mesh router core

    Packet model and bincode codec (packet.rs, network.rs), payment proofs
    (payment_proof.rs), the replay guard (replay.rs), the routing table
    (routing.rs), route discovery (discovery.rs), the policy engine
    (routing_policy.rs) and [MeshManager::route_packet] (manager.rs).

    Conventions.
    - A [u8] is a [Z] in [0, 256); a [u32]/[u64] is a [Z] in [0, 2^w).
      Rust's [+] and [*] on [u64] are written out with their wrap-around
      ([u64_add], [u64_mul]), i.e. the release-profile semantics; a debug
      build panics instead at the same places.
    - A [NodeId = [u8; 32]] is a [list Z] of length 32.
    - [DashMap]/[HashMap] are stdpp [gmap]s.
    - [SystemTime::now()] is an explicit argument [now] of each operation
      that reads it; one call is taken to read the clock at one instant. *)

From Stdlib Require Import ZArith List String Ascii Bool Lia QArith Sorted.
From stdpp Require Import base gmap list strings.
Import ListNotations.

Open Scope Z_scope.

(** ** Machine integers and identifiers *)

Definition u64_add (a b : Z) : Z := (a + b) mod 2^64.
Definition u64_mul (a b : Z) : Z := (a * b) mod 2^64.

(** [pub type NodeId = [u8; 32]] *)
Definition NodeId := list Z.

Definition zero_node_id : NodeId := repeat 0 32%nat.

(** Rust's [Result<T, E>]. *)
Inductive Result (T E : Type) : Type :=
| Ok (t : T)
| Err (e : E).
Arguments Ok {T E} t.
Arguments Err {T E} e.

(** ** bincode 1.x (default [bincode::serialize]: fixed-width little-endian
    integers, [u64] length prefixes, [u32] enum variant indices, one tag
    byte for [Option]) *)

Fixpoint le_bytes (n : nat) (x : Z) : list Z :=
  match n with
  | O => []
  | S n' => x mod 256 :: le_bytes n' (x / 256)
  end.

Definition enc_u8 (x : Z) : list Z := [x].
Definition enc_u32 (x : Z) : list Z := le_bytes 4 x.
Definition enc_u64 (x : Z) : list Z := le_bytes 8 x.

(** [[u8; N]] is a tuple for serde: its bytes, no length prefix. *)
Definition enc_array (b : list Z) : list Z := b.

(** [Vec<T>]: [u64] length, then the elements. *)
Definition enc_vec {A} (f : A -> list Z) (l : list A) : list Z :=
  enc_u64 (Z.of_nat (length l)) ++ flat_map f l.

(** [String]: [u64] length, then its UTF-8 bytes (a Rocq [string] is read as
    its byte sequence). *)
Definition string_bytes (s : string) : list Z :=
  map (fun c => Z.of_N (N_of_ascii c)) (list_ascii_of_string s).

Definition enc_string (s : string) : list Z :=
  enc_u64 (Z.of_nat (length (string_bytes s))) ++ string_bytes s.

Definition enc_option {A} (f : A -> list Z) (o : option A) : list Z :=
  match o with
  | None => [0]
  | Some a => 1 :: f a
  end.

(** ** Payment proofs (payment_proof.rs), with the [ctv] feature's variant *)

Inductive PaymentProof : Type :=
| Lightning (invoice : string) (preimage : list Z)
    (amount_msats timestamp expires_at : Z)
| InstantSettlement (covenant_proof : list Z) (output_index : Z)
    (merkle_proof : list (list Z)) (amount_sats timestamp : Z).

Definition amount_sats (p : PaymentProof) : Z :=
  match p with
  | Lightning _ _ amount_msats _ _ => amount_msats / 1000
  | InstantSettlement _ _ _ amount_sats _ => amount_sats
  end.

Definition MAX_AGE_SECONDS : Z := 24 * 60 * 60.

(** [PaymentProof::is_expired] *)
Definition is_expired (now : Z) (p : PaymentProof) : bool :=
  match p with
  | Lightning _ _ _ _ expires_at => expires_at <? now
  | InstantSettlement _ _ _ _ timestamp =>
      u64_add timestamp MAX_AGE_SECONDS <? now
  end.

(** [bincode::serialize] of a [PaymentProof]. *)
Definition enc_payment_proof (p : PaymentProof) : list Z :=
  match p with
  | Lightning invoice preimage amount_msats timestamp expires_at =>
      enc_u32 0 ++ enc_string invoice ++ enc_array preimage
        ++ enc_u64 amount_msats ++ enc_u64 timestamp ++ enc_u64 expires_at
  | InstantSettlement covenant_proof output_index merkle_proof amount_sats timestamp =>
      enc_u32 1 ++ enc_vec enc_u8 covenant_proof ++ enc_u32 output_index
        ++ enc_vec enc_array merkle_proof ++ enc_u64 amount_sats
        ++ enc_u64 timestamp
  end.

(** ** Replay guard (replay.rs) *)

Record ReplayEntry : Type := {
  re_timestamp : Z;
  re_peer_id : NodeId;
  re_sequence : Z
}.

Record ReplayPrevention : Type := {
  replay_data : gmap (list Z) ReplayEntry;
  used_sequences : gmap NodeId Z;
  expiry_seconds : Z
}.

(** The error strings of [check_replay], one constructor per message. *)
Inductive ReplayErr : Type :=
| ReplayAlreadyUsed                       (* "Payment proof already used (replay detected)" *)
| SequenceOutOfOrder (got expected : Z)   (* "Sequence number out of order: got {}, expected > {}" *)
| ProofExpired.                           (* "Payment proof expired" *)

Definition ReplayPrevention_new (expiry : Z) : ReplayPrevention :=
  {| replay_data := ∅; used_sequences := ∅; expiry_seconds := expiry |}.

(** [ReplayPrevention::cleanup_expired]: drop every entry with
    [now > timestamp + expiry_seconds]. *)
Definition replay_cleanup_expired (now : Z) (rp : ReplayPrevention) : ReplayPrevention :=
  {| replay_data :=
       filter (fun kv : list Z * ReplayEntry =>
                 ~ (u64_add (re_timestamp kv.2) (expiry_seconds rp) < now))
              (replay_data rp);
     used_sequences := used_sequences rp;
     expiry_seconds := expiry_seconds rp |}.

(** The per-peer sequence test of [check_replay]. *)
Definition sequence_check (stored : option Z) (sequence : Z) : option ReplayErr :=
  match stored with
  | Some last => if sequence <=? last then Some (SequenceOutOfOrder sequence last) else None
  | None => None
  end.

Section Replay.

(** SHA-256, left abstract: every result below holds for any hash function. *)
Variable sha256 : list Z -> list Z.

(** [PaymentProof::hash]: SHA-256 of the bincode serialization. *)
Definition proof_hash (p : PaymentProof) : list Z := sha256 (enc_payment_proof p).

(** [ReplayPrevention::check_replay]: the result and the guard afterwards. *)
Definition check_replay (now : Z) (rp : ReplayPrevention) (proof : PaymentProof)
    (peer_id : NodeId) (sequence : Z) : Result bool ReplayErr * ReplayPrevention :=
  let rp1 := replay_cleanup_expired now rp in
  let h := proof_hash proof in
  match replay_data rp1 !! h with
  | Some _ => (Err ReplayAlreadyUsed, rp1)
  | None =>
      match sequence_check (used_sequences rp1 !! peer_id) sequence with
      | Some e => (Err e, rp1)
      | None =>
          if is_expired now proof then (Err ProofExpired, rp1)
          else (Ok true,
                {| replay_data :=
                     <[h := {| re_timestamp := now; re_peer_id := peer_id;
                               re_sequence := sequence |}]> (replay_data rp1);
                   used_sequences := <[peer_id := sequence]> (used_sequences rp1);
                   expiry_seconds := expiry_seconds rp1 |})
      end
  end.

(** Operations on a shared guard, each at its own clock reading. *)
Inductive ReplayOp : Type :=
| OpCheck (now : Z) (proof : PaymentProof) (peer_id : NodeId) (sequence : Z)
| OpCleanup (now : Z).

Definition op_time (o : ReplayOp) : Z :=
  match o with OpCheck now _ _ _ => now | OpCleanup now => now end.

(** Run a sequence of operations; report, for every [check_replay] call,
    the hash of its proof and its result. *)
Fixpoint run_replay (rp : ReplayPrevention) (ops : list ReplayOp)
    : list (list Z * Result bool ReplayErr) * ReplayPrevention :=
  match ops with
  | [] => ([], rp)
  | OpCheck now proof peer sequence :: ops' =>
      let '(r, rp1) := check_replay now rp proof peer sequence in
      let '(rs, rp2) := run_replay rp1 ops' in
      ((proof_hash proof, r) :: rs, rp2)
  | OpCleanup now :: ops' => run_replay (replay_cleanup_expired now rp) ops'
  end.

(** The number of successful [check_replay] calls for hash [h]. *)
Definition successes_for (h : list Z) (rs : list (list Z * Result bool ReplayErr)) : nat :=
  length (List.filter (fun hr => match hr with
                            | (h', Ok _) => bool_decide (h' = h)
                            | _ => false
                            end) rs).

End Replay.

(** Along the same run as [run_replay]: the sequence numbers accepted from
    [peer] (calls of [check_replay] by [peer] that returned [Ok]), in order. *)
Fixpoint accepted_seqs (sha256 : list Z -> list Z) (peer : NodeId) (rp : ReplayPrevention)
    (ops : list ReplayOp) : list Z :=
  match ops with
  | [] => []
  | OpCheck now proof p seq :: ops' =>
      let '(r, rp1) := check_replay sha256 now rp proof p seq in
      match r with
      | Ok _ => if bool_decide (p = peer) then [seq] else []
      | Err _ => []
      end ++ accepted_seqs sha256 peer rp1 ops'
  | OpCleanup now :: ops' => accepted_seqs sha256 peer (replay_cleanup_expired now rp) ops'
  end.

(** ** Routing table (routing.rs) *)

Record RoutingEntry : Type := {
  node_id : NodeId;
  direct_address : option (list Z);
  next_hop : option NodeId;
  route_path : list NodeId;
  route_cost : Z;
  last_updated : Z;
  quality_score : Q
}.

Record RoutingTable : Type := {
  routes : gmap NodeId RoutingEntry;
  direct_peers : gmap NodeId (list Z);
  route_cache : gmap NodeId (list NodeId);
  route_expiry_seconds : Z
}.

Definition RoutingTable_new (route_expiry : Z) : RoutingTable :=
  {| routes := ∅; direct_peers := ∅; route_cache := ∅;
     route_expiry_seconds := route_expiry |}.

(** [RoutingTable::add_direct_peer] *)
Definition add_direct_peer (now : Z) (t : RoutingTable) (n : NodeId) (address : list Z)
    : RoutingTable :=
  {| routes := <[n := {| node_id := n; direct_address := Some address; next_hop := None;
                         route_path := [n]; route_cost := 0; last_updated := now;
                         quality_score := 1 |}]> (routes t);
     direct_peers := <[n := address]> (direct_peers t);
     route_cache := route_cache t;
     route_expiry_seconds := route_expiry_seconds t |}.

(** [RoutingTable::add_route] *)
Definition add_route (t : RoutingTable) (e : RoutingEntry) : RoutingTable :=
  {| routes := <[node_id e := e]> (routes t);
     direct_peers := direct_peers t;
     route_cache := route_cache t;
     route_expiry_seconds := route_expiry_seconds t |}.

(** [RoutingTable::get_route] *)
Definition get_route (t : RoutingTable) (n : NodeId) : option RoutingEntry :=
  routes t !! n.

(** [RoutingTable::find_route]: the cache first, then an unexpired entry
    (which is then cached). *)
Definition find_route (now : Z) (t : RoutingTable) (dest : NodeId)
    : option (list NodeId) * RoutingTable :=
  match route_cache t !! dest with
  | Some r => (Some r, t)
  | None =>
      match routes t !! dest with
      | Some e =>
          if now <=? u64_add (last_updated e) (route_expiry_seconds t) then
            (Some (route_path e),
             {| routes := routes t; direct_peers := direct_peers t;
                route_cache := <[dest := route_path e]> (route_cache t);
                route_expiry_seconds := route_expiry_seconds t |})
          else (None, t)
      | None => (None, t)
      end
  end.

(** The pinning test of [cleanup_expired]: direct-only entries never expire. *)
Definition expirable (e : RoutingEntry) : bool :=
  match direct_address e, next_hop e with
  | Some _, None => false
  | _, _ => true
  end.

(** [RoutingTable::cleanup_expired]: remove expired, non-pinned entries,
    then clear the cache. *)
Definition rt_cleanup_expired (now : Z) (t : RoutingTable) : RoutingTable :=
  {| routes :=
       filter (fun kv : NodeId * RoutingEntry =>
                 ~ (u64_add (last_updated kv.2) (route_expiry_seconds t) < now
                    /\ expirable kv.2 = true))
              (routes t);
     direct_peers := direct_peers t;
     route_cache := ∅;
     route_expiry_seconds := route_expiry_seconds t |}.

(** A call that either returns or blocks forever on a lock it already
    holds. *)
Inductive Blocking (A : Type) : Type :=
| Done (a : A)
| Deadlock.
Arguments Done {A} a.
Arguments Deadlock {A}.

(** [RoutingTable::remove_direct_peer]: forget the address, then look the
    routing entry up with [routes.get]. When the entry is direct-only
    ([direct_address] set, no [next_hop]) the code calls [routes.remove]
    while the read guard of [routes.get] is still alive: the write lock
    on the same DashMap shard waits for that guard, which is dropped only
    after the call returns, so the call never returns. Otherwise the
    routes and the route cache are left as they are. *)
Definition remove_direct_peer (t : RoutingTable) (n : NodeId) : Blocking RoutingTable :=
  let t1 := {| routes := routes t;
               direct_peers := delete n (direct_peers t);
               route_cache := route_cache t;
               route_expiry_seconds := route_expiry_seconds t |} in
  match routes t !! n with
  | Some e =>
      match direct_address e, next_hop e with
      | Some _, None => Deadlock
      | _, _ => Done t1
      end
  | None => Done t1
  end.

Record RoutingFee : Type := {
  fee_total : Z;
  fee_destination : Z;
  fee_intermediate : Z;
  fee_source : Z;
  fee_hop_count : nat
}.

(** [RoutingTable::calculate_routing_fee] (u64 products wrap). *)
Definition calculate_routing_fee (route : list NodeId) (base_fee_sats : Z) : RoutingFee :=
  let total_fee := base_fee_sats in
  let destination_fee := u64_mul total_fee 60 / 100 in
  let intermediate_fee :=
    if (2 <? length route)%nat
    then u64_mul total_fee 30 / 100 / Z.of_nat (length route - 2)
    else 0 in
  let source_fee := u64_mul total_fee 10 / 100 in
  {| fee_total := total_fee; fee_destination := destination_fee;
     fee_intermediate := intermediate_fee; fee_source := source_fee;
     fee_hop_count := length route |}.

(** ** Route discovery (discovery.rs) *)

Inductive DiscoveryMessage : Type :=
| RouteRequest (destination source : NodeId) (request_id : Z) (max_hops : Z)
| RouteResponse (destination source : NodeId) (request_id : Z)
    (route : list NodeId) (cost : Z)
| RouteAdvertisement (routes : list (NodeId * NodeId * Z * Z)) (source : NodeId).

Record PendingRequest : Type := {
  pr_destination : NodeId;
  pr_source : NodeId;
  pr_request_id : Z;
  pr_timestamp : Z;
  pr_responders : list NodeId
}.

(** The discovery manager together with the routing table it shares. *)
Record RouteDiscovery : Type := {
  pending_requests : gmap Z PendingRequest;
  request_id_counter : Z;
  routing_table : RoutingTable;
  disc_max_hops : Z;
  timeout_seconds : Z
}.

(** A call either returns or panics. *)
Inductive Outcome (A : Type) : Type :=
| Returned (a : A)
| Panicked.
Arguments Returned {A} a.
Arguments Panicked {A}.

(** Rust's [v[i]] on a [Vec]: panics out of range. *)
Definition index {A} (l : list A) (i : nat) : Outcome A :=
  match nth_error l i with
  | Some x => Returned x
  | None => Panicked
  end.

Definition set_routing_table (d : RouteDiscovery) (t : RoutingTable) : RouteDiscovery :=
  {| pending_requests := pending_requests d; request_id_counter := request_id_counter d;
     routing_table := t; disc_max_hops := disc_max_hops d;
     timeout_seconds := timeout_seconds d |}.

Definition set_pending (d : RouteDiscovery) (p : gmap Z PendingRequest) : RouteDiscovery :=
  {| pending_requests := p; request_id_counter := request_id_counter d;
     routing_table := routing_table d; disc_max_hops := disc_max_hops d;
     timeout_seconds := timeout_seconds d |}.

(** [RouteDiscovery::discover_route] after its route checks: allocate the
    next request id and record a pending request stamped [now]. *)
Definition record_request (now : Z) (d : RouteDiscovery) (dest src : NodeId)
    : RouteDiscovery :=
  let request_id := u64_add (request_id_counter d) 1 in
  {| pending_requests :=
       <[request_id := {| pr_destination := dest; pr_source := src;
                          pr_request_id := request_id; pr_timestamp := now;
                          pr_responders := [] |}]> (pending_requests d);
     request_id_counter := request_id;
     routing_table := routing_table d; disc_max_hops := disc_max_hops d;
     timeout_seconds := timeout_seconds d |}.

(** [RouteDiscovery::discover_route]: [Some route] at once, or [None] after
    recording a pending request. *)
Definition discover_route (now : Z) (d : RouteDiscovery) (dest src : NodeId)
    : option (list NodeId) * RouteDiscovery :=
  let '(found, t1) := find_route now (routing_table d) dest in
  let d1 := set_routing_table d t1 in
  match found with
  | Some route => (Some route, d1)
  | None =>
      match routes t1 !! dest with
      | Some e =>
          match direct_address e with
          | Some _ => (Some [src; dest], d1)
          | None => (None, record_request now d1 dest src)
          end
      | None => (None, record_request now d1 dest src)
      end
  end.

(** [RouteDiscovery::handle_route_response] *)
Definition handle_route_response (now : Z) (d : RouteDiscovery)
    (response : DiscoveryMessage) (from_node : NodeId) : Outcome RouteDiscovery :=
  match response with
  | RouteResponse destination source request_id route cost =>
      match pending_requests d !! request_id with
      | Some request =>
          let request' :=
            {| pr_destination := pr_destination request; pr_source := pr_source request;
               pr_request_id := pr_request_id request; pr_timestamp := pr_timestamp request;
               pr_responders := pr_responders request ++ [from_node] |} in
          let pending1 := <[request_id := request']> (pending_requests d) in
          match index route 1 with
          | Panicked => Panicked
          | Returned hop =>
              let entry := {| node_id := destination; direct_address := None;
                              next_hop := Some hop; route_path := route;
                              route_cost := cost; last_updated := now;
                              quality_score := 8 # 10 |} in
              let d1 := set_routing_table d (add_route (routing_table d) entry) in
              Returned (set_pending d1 (delete request_id pending1))
          end
      | None => Returned d
      end
  | _ => Returned d
  end.

(** The entry [handle_route_advertisement] builds from one advertised
    [RouteAdvertisementEntry { destination, next_hop, cost, hop_count }]. *)
Definition advertised_entry (now : Z) (source : NodeId) (re : NodeId * NodeId * Z * Z)
    : RoutingEntry :=
  let '(destination, hop, cost, _) := re in
  {| node_id := destination; direct_address := None; next_hop := Some hop;
     route_path := [source; hop; destination]; route_cost := cost;
     last_updated := now; quality_score := 7 # 10 |}.

(** [RouteDiscovery::handle_route_advertisement]: [add_route] for every
    advertised entry, in order. *)
Definition handle_route_advertisement (now : Z) (d : RouteDiscovery)
    (advertisement : DiscoveryMessage) (from_node : NodeId) : RouteDiscovery :=
  match advertisement with
  | RouteAdvertisement rs source =>
      set_routing_table d
        (fold_left (fun t re => add_route t (advertised_entry now source re))
                   rs (routing_table d))
  | _ => d
  end.

(** [RouteDiscovery::cleanup_expired]: drop every pending request with
    [now > timestamp + timeout_seconds]. *)
Definition disc_cleanup_expired (now : Z) (d : RouteDiscovery) : RouteDiscovery :=
  set_pending d
    (filter (fun kv : Z * PendingRequest =>
               ~ (u64_add (pr_timestamp kv.2) (timeout_seconds d) < now))
            (pending_requests d)).

(** ** Mesh packets (packet.rs) *)

Definition MESH_PACKET_MAGIC : list Z := [0x4D; 0x45; 0x53; 0x48].
Definition MESH_PACKET_VERSION : Z := 1.
Definition MAX_PACKET_SIZE : Z := 1000000.

Inductive PacketType : Type :=
| BitcoinP2P
| CommonsGovernance
| StratumV2
| Paid.

#[global] Instance PacketType_eq_dec : EqDecision PacketType.
Proof. solve_decision. Defined.

(** [PacketMetadata]; its [HashMap<String, String>] as the list of entries
    in iteration order. *)
Record PacketMetadata : Type := {
  protocol : option string;
  fields : list (string * string)
}.

Record MeshPacket : Type := {
  version : Z;
  packet_type : PacketType;
  source : NodeId;
  destination : NodeId;
  route : list NodeId;
  sequence : Z;
  timestamp : Z;
  payment_proof : option PaymentProof;
  payload : list Z;
  metadata : option PacketMetadata
}.

(** The error strings of [validate], one constructor per message. *)
Inductive ValidateErr : Type :=
| InvalidVersion (v : Z)          (* "Invalid packet version: {}" *)
| SizeExceeds (size : Z)          (* "Packet size exceeds maximum: {} > {}" *)
| EmptyRoute                      (* "Route cannot be empty" *)
| RouteStartMismatch              (* "Route must start with source node" *)
| RouteEndMismatch                (* "Route must end with destination node" *)
| PaidWithoutProof.               (* "Paid packets require payment proof" *)

(** [MeshPacket::serialized_size] (an estimate, not the bincode length). *)
Definition serialized_size (p : MeshPacket) : Z :=
  82 + Z.of_nat (length (route p)) * 32
     + (if payment_proof p then 500 else 0)
     + Z.of_nat (length (payload p))
     + (if metadata p then 100 else 0).

(** [MeshPacket::validate] *)
Definition validate (p : MeshPacket) : Result unit ValidateErr :=
  if negb (version p =? MESH_PACKET_VERSION) then Err (InvalidVersion (version p))
  else if MAX_PACKET_SIZE <? serialized_size p then Err (SizeExceeds (serialized_size p))
  else match route p with
  | [] => Err EmptyRoute
  | r0 :: _ =>
      if negb (bool_decide (r0 = source p)) then Err RouteStartMismatch
      else if negb (bool_decide (last (route p) = Some (destination p))) then Err RouteEndMismatch
      else if bool_decide (packet_type p = Paid) && negb (bool_decide (is_Some (payment_proof p)))
      then Err PaidWithoutProof
      else Ok tt
  end.

(** [MeshPacket::new]: route [[source]], sequence 0, no proof, no metadata. *)
Definition MeshPacket_new (now : Z) (packet_type : PacketType) (source destination : NodeId)
    (payload : list Z) : MeshPacket :=
  {| version := MESH_PACKET_VERSION; packet_type := packet_type; source := source;
     destination := destination; route := [source]; sequence := 0; timestamp := now;
     payment_proof := None; payload := payload; metadata := None |}.

Definition set_payment_proof (p : MeshPacket) (o : option PaymentProof) : MeshPacket :=
  {| version := version p; packet_type := packet_type p; source := source p;
     destination := destination p; route := route p; sequence := sequence p;
     timestamp := timestamp p; payment_proof := o; payload := payload p;
     metadata := metadata p |}.

Definition set_route (p : MeshPacket) (r : list NodeId) : MeshPacket :=
  {| version := version p; packet_type := packet_type p; source := source p;
     destination := destination p; route := r; sequence := sequence p;
     timestamp := timestamp p; payment_proof := payment_proof p; payload := payload p;
     metadata := metadata p |}.

(** [MeshPacket::new_paid] *)
Definition new_paid (now : Z) (source destination : NodeId) (payload : list Z)
    (proof : PaymentProof) : MeshPacket :=
  set_payment_proof (MeshPacket_new now Paid source destination payload) (Some proof).

(** [MeshPacket::is_for_me] *)
Definition is_for_me (p : MeshPacket) (my_node_id : NodeId) : bool :=
  bool_decide (destination p = my_node_id).

(** [MeshPacket::should_forward] *)
Definition should_forward (p : MeshPacket) (my_node_id : NodeId) : bool :=
  if is_for_me p my_node_id then false
  else bool_decide (my_node_id ∈ route p).

(** [Iterator::position] *)
Fixpoint position (x : NodeId) (l : list NodeId) : option nat :=
  match l with
  | [] => None
  | y :: l' => if bool_decide (y = x) then Some O else option_map S (position x l')
  end.

(** [MeshPacket::get_next_hop] *)
Definition get_next_hop (p : MeshPacket) (my_node_id : NodeId) : option NodeId :=
  match position my_node_id (route p) with
  | Some my_index =>
      if (S my_index <? length (route p))%nat then nth_error (route p) (S my_index)
      else None
  | None => None
  end.

(** [Vec::insert]: panics when the index is past the end. *)
Definition vec_insert {A} (l : list A) (i : nat) (x : A) : Outcome (list A) :=
  if (length l <? i)%nat then Panicked else Returned (take i l ++ x :: drop i l).

(** [MeshPacket::add_to_route]: insert before the last element unless
    already present; on an empty route [len() - 1] underflows and the call
    panics (a debug build at the subtraction, a release build in [insert]). *)
Definition add_to_route (node : NodeId) (p : MeshPacket) : Outcome MeshPacket :=
  if bool_decide (node ∈ route p) then Returned p
  else match route p with
       | [] => Panicked
       | _ :: _ =>
           match vec_insert (route p) (length (route p) - 1) node with
           | Returned r => Returned (set_route p r)
           | Panicked => Panicked
           end
       end.

(** ** bincode encoding of a packet *)

Definition packet_type_index (t : PacketType) : Z :=
  match t with BitcoinP2P => 0 | CommonsGovernance => 1 | StratumV2 => 2 | Paid => 3 end.

Definition enc_metadata (m : PacketMetadata) : list Z :=
  enc_option enc_string (protocol m)
    ++ enc_vec (fun kv : string * string => enc_string kv.1 ++ enc_string kv.2) (fields m).

Definition enc_packet (p : MeshPacket) : list Z :=
  enc_u8 (version p) ++ enc_u32 (packet_type_index (packet_type p))
    ++ enc_array (source p) ++ enc_array (destination p)
    ++ enc_vec enc_array (route p)
    ++ enc_u64 (sequence p) ++ enc_u64 (timestamp p)
    ++ enc_option enc_payment_proof (payment_proof p)
    ++ enc_vec enc_u8 (payload p)
    ++ enc_option enc_metadata (metadata p).

(** ** bincode decoding: a parser over the remaining input, [None] on a
    bincode error; trailing bytes are allowed, as [bincode::deserialize]
    allows them. *)

Definition Parser (A : Type) : Type := list Z -> option (A * list Z).

#[global] Instance parser_ret : MRet Parser := fun A a s => Some (a, s).
#[global] Instance parser_bind : MBind Parser :=
  fun A B k m s => match m s with Some (a, s') => k a s' | None => None end.

Definition p_fail {A} : Parser A := fun _ => None.

Fixpoint p_take (n : nat) : Parser (list Z) :=
  fun s => match n, s with
           | O, _ => Some ([], s)
           | S n', x :: s' =>
               match p_take n' s' with Some (xs, r) => Some (x :: xs, r) | None => None end
           | S _, [] => None
           end.

Definition le_value (bs : list Z) : Z := fold_right (fun b acc => b + 256 * acc) 0 bs.

Definition p_u8 : Parser Z := bs ← p_take 1; mret (le_value bs).
Definition p_u32 : Parser Z := bs ← p_take 4; mret (le_value bs).
Definition p_u64 : Parser Z := bs ← p_take 8; mret (le_value bs).
Definition p_array32 : Parser (list Z) := p_take 32.

Fixpoint p_count {A} (n : nat) (pa : Parser A) : Parser (list A) :=
  match n with
  | O => mret []
  | S n' => a ← pa; rest ← p_count n' pa; mret (a :: rest)
  end.

(** [Vec<T>]: a length, then that many elements. Every element type used
    here takes at least one byte, so a length beyond the remaining input
    fails, as the element reads would. *)
Definition p_elems {A} (n : Z) (pa : Parser A) : Parser (list A) :=
  fun s => if Z.of_nat (length s) <? n then None else p_count (Z.to_nat n) pa s.

Definition p_vec {A} (pa : Parser A) : Parser (list A) :=
  n ← p_u64; p_elems n pa.

(** Well-formed UTF-8 (Unicode Table 3-7), as [String::from_utf8] checks it. *)
Definition cont (c : Z) : bool := (0x80 <=? c) && (c <=? 0xBF).

Definition second_ok (b c : Z) : bool :=
  if b =? 0xE0 then (0xA0 <=? c) && (c <=? 0xBF)
  else if b =? 0xED then (0x80 <=? c) && (c <=? 0x9F)
  else if b =? 0xF0 then (0x90 <=? c) && (c <=? 0xBF)
  else if b =? 0xF4 then (0x80 <=? c) && (c <=? 0x8F)
  else cont c.

Fixpoint utf8_valid (l : list Z) : bool :=
  match l with
  | [] => true
  | b :: r =>
      if b <=? 0x7F then utf8_valid r else
      match r with
      | [] => false
      | c1 :: r1 =>
          if (0xC2 <=? b) && (b <=? 0xDF) then cont c1 && utf8_valid r1 else
          match r1 with
          | [] => false
          | c2 :: r2 =>
              if (0xE0 <=? b) && (b <=? 0xEF) then second_ok b c1 && cont c2 && utf8_valid r2 else
              match r2 with
              | [] => false
              | c3 :: r3 =>
                  (0xF0 <=? b) && (b <=? 0xF4) && second_ok b c1 && cont c2 && cont c3
                    && utf8_valid r3
              end
          end
      end
  end.

Definition string_of_bytes (bs : list Z) : string :=
  string_of_list_ascii (map (fun b => ascii_of_N (Z.to_N b)) bs).

Definition p_utf8 (n : Z) : Parser string :=
  fun s => if Z.of_nat (length s) <? n then None else
           match p_take (Z.to_nat n) s with
           | Some (bs, r) => if utf8_valid bs then Some (string_of_bytes bs, r) else None
           | None => None
           end.

Definition p_string : Parser string :=
  n ← p_u64; p_utf8 n.

Definition p_option {A} (pa : Parser A) : Parser (option A) :=
  tag ← p_u8;
  if tag =? 0 then mret None
  else if tag =? 1 then a ← pa; mret (Some a)
  else p_fail.

Definition p_packet_type : Parser PacketType :=
  tag ← p_u32;
  if tag =? 0 then mret BitcoinP2P
  else if tag =? 1 then mret CommonsGovernance
  else if tag =? 2 then mret StratumV2
  else if tag =? 3 then mret Paid
  else p_fail.

Definition p_payment_proof : Parser PaymentProof :=
  tag ← p_u32;
  if tag =? 0 then
    invoice ← p_string; preimage ← p_array32; amount_msats ← p_u64;
    ts ← p_u64; expires_at ← p_u64;
    mret (Lightning invoice preimage amount_msats ts expires_at)
  else if tag =? 1 then
    covenant_proof ← p_vec p_u8; output_index ← p_u32;
    merkle_proof ← p_vec p_array32; amount ← p_u64; ts ← p_u64;
    mret (InstantSettlement covenant_proof output_index merkle_proof amount ts)
  else p_fail.

Definition p_metadata : Parser PacketMetadata :=
  protocol ← p_option p_string;
  fields ← p_vec (k ← p_string; v ← p_string; mret (k, v));
  mret {| protocol := protocol; fields := fields |}.

Definition p_packet : Parser MeshPacket :=
  version ← p_u8; packet_type ← p_packet_type;
  source ← p_array32; destination ← p_array32;
  route ← p_vec p_array32;
  sequence ← p_u64; timestamp ← p_u64;
  payment_proof ← p_option p_payment_proof;
  payload ← p_vec p_u8;
  metadata ← p_option p_metadata;
  mret {| version := version; packet_type := packet_type; source := source;
          destination := destination; route := route; sequence := sequence;
          timestamp := timestamp; payment_proof := payment_proof;
          payload := payload; metadata := metadata |}.

(** ** Errors (error.rs); the [InvalidPacket] strings as constructors *)

Inductive PacketErr : Type :=
| EmptyPayload                    (* "Empty payload" *)
| ZeroDestination                 (* "Invalid destination (zero hash)" *)
| Invalid (e : ValidateErr)       (* the message of [validate] *)
| NotMeshPacket                   (* "Not a mesh packet (invalid magic bytes)" *)
| DeserializeFailed.              (* "Failed to deserialize packet: {}" *)

Inductive MeshError : Type :=
| ModuleError (s : string)
| RoutingError (s : string)
| PaymentError (s : string)
| PaymentVerification (s : string)
| ClassificationError (s : string)
| ConfigError (s : string)
| InvalidPacket (e : PacketErr)
| ReplayDetected (e : ReplayErr)
| RouteNotFound (s : string)
| MeshDisabled (s : string).

(** ** Wire framing (network.rs) *)

(** [is_mesh_packet] *)
Definition is_mesh_packet (data : list Z) : bool :=
  (4 <=? length data)%nat && bool_decide (firstn 4 data = MESH_PACKET_MAGIC).

(** [deserialize_mesh_packet]: checks the magic, then hands the whole
    buffer to [bincode::deserialize]. *)
Definition deserialize_mesh_packet (data : list Z) : Result MeshPacket MeshError :=
  if negb (is_mesh_packet data) then Err (InvalidPacket NotMeshPacket)
  else match p_packet data with
       | Some (packet, _) => Ok packet
       | None => Err (InvalidPacket DeserializeFailed)
       end.

(** [serialize_mesh_packet]: validate, encode, prepend the magic. *)
Definition serialize_mesh_packet (p : MeshPacket) : Result (list Z) MeshError :=
  match validate p with
  | Err e => Err (InvalidPacket (Invalid e))
  | Ok _ => Ok (MESH_PACKET_MAGIC ++ enc_packet p)
  end.

(** ** Policy engine (routing_policy.rs) *)

Module routing_policy.

Inductive RoutingPolicy : Type := Free | PaymentRequired.

#[global] Instance RoutingPolicy_eq_dec : EqDecision RoutingPolicy.
Proof. solve_decision. Defined.

Inductive DetectedProtocol : Type :=
| BitcoinP2P
| CommonsGovernance
| StratumV2
| MeshPacket
| Unknown.

Inductive MeshMode : Type := BitcoinOnly | PaymentGated | Open.

Definition bitcoin_commands : list string :=
  ["version"; "verack"; "ping"; "pong"; "getheaders"; "headers"; "getblocks";
   "block"; "getdata"; "inv"; "tx"; "notfound"; "getaddr"; "addr"; "mempool";
   "feefilter"; "sendheaders"; "sendcmpct"; "cmpctblock"; "getblocktxn";
   "blocktxn"; "getcfilters"; "cfilter"; "getcfheaders"; "cfheaders";
   "getcfcheckpt"; "cfcheckpt"; "sendpkgtxn"; "pkgtxn"; "pkgtxnreject"]%string.

Definition governance_commands : list string :=
  ["econreg"; "econveto"; "econstat"; "econfork"; "getbanlist"; "banlist"]%string.

(** The command text compared on its bytes: the commands are ASCII, so
    [String::from_utf8_lossy] of the 8 bytes equals one of them exactly when
    the bytes do (a replacement character is never ASCII). *)
Definition is_command_in (cmds : list string) (command : list Z) : bool :=
  existsb (fun c => bool_decide (string_bytes c = command)) cmds.

Definition is_bitcoin_command (command : list Z) : bool :=
  is_command_in bitcoin_commands command.
Definition is_governance_command (command : list Z) : bool :=
  is_command_in governance_commands command.

Fixpoint drop_zeros (bs : list Z) : list Z :=
  match bs with
  | b :: r => if b =? 0 then drop_zeros r else bs
  | [] => []
  end.

(** [trim_end_matches('\0')] *)
Definition trim_nul (bs : list Z) : list Z := rev (drop_zeros (rev bs)).

Definition is_stratum_v2_message (message : list Z) : bool :=
  match message with
  | m0 :: m1 :: _ =>
      let tag := m0 + 256 * m1 in
      ((0x0100 <=? tag) && (tag <=? 0x01FF)) || ((0x0200 <=? tag) && (tag <=? 0x02FF))
  | _ => false
  end.

Definition is_bitcoin_magic (m : Z) : bool :=
  (m =? 0xd9b4bef9) || (m =? 0x0709110b) || (m =? 0xdab5bffa).

(** [RoutingPolicyEngine::detect_protocol] *)
Definition detect_protocol (message : list Z) : DetectedProtocol :=
  let bitcoin :=
    if (4 <=? length message)%nat && is_bitcoin_magic (le_value (firstn 4 message))
       && (12 <=? length message)%nat then
      let command := trim_nul (firstn 8 (skipn 4 message)) in
      if is_bitcoin_command command then Some BitcoinP2P
      else if is_governance_command command then Some CommonsGovernance
      else None
    else None in
  match bitcoin with
  | Some d => d
  | None =>
      if (2 <=? length message)%nat && is_stratum_v2_message message then StratumV2
      else if (4 <=? length message)%nat && bool_decide (firstn 4 message = MESH_PACKET_MAGIC)
      then MeshPacket
      else Unknown
  end.

(** [RoutingPolicyEngine::determine_policy] *)
Definition determine_policy (mode : MeshMode) (protocol : DetectedProtocol) : RoutingPolicy :=
  match protocol, mode with
  | BitcoinP2P, _ => Free
  | CommonsGovernance, _ => Free
  | StratumV2, _ => Free
  | MeshPacket, BitcoinOnly => PaymentRequired
  | MeshPacket, PaymentGated => PaymentRequired
  | MeshPacket, Open => Free
  | Unknown, Open => Free
  | Unknown, _ => PaymentRequired
  end.


(** [str::to_lowercase] on the ASCII letters. Rust's [to_lowercase] is the
    Unicode mapping; the only non-ASCII character it maps into ASCII is the
    Kelvin sign (to ['k']), and no mode name below contains a ['k'], so the
    match of [MeshMode::from] has the same outcome. *)
Definition ascii_lower (c : ascii) : ascii :=
  let n := nat_of_ascii c in
  if (65 <=? n)%nat && (n <=? 90)%nat then ascii_of_nat (n + 32) else c.

Definition to_lowercase (s : string) : string :=
  string_of_list_ascii (map ascii_lower (list_ascii_of_string s)).

(** [impl From<&str> for MeshMode] *)
Definition MeshMode_from (s : string) : MeshMode :=
  let l := to_lowercase s in
  if String.eqb l "bitcoin_only" || String.eqb l "bitcoin-only" then BitcoinOnly
  else if String.eqb l "payment_gated" || String.eqb l "payment-gated"
          || String.eqb l "paymentgated" then PaymentGated
  else if String.eqb l "open" then Open
  else PaymentGated.

End routing_policy.

(** ** Forwarder entry point (manager.rs) *)

Record VerificationResult : Type := {
  verified : bool;
  vr_amount : Z;
  vr_timestamp : Z;
  vr_expires_at : option Z;
  vr_error : option string
}.

Record MeshManager : Type := {
  enabled : bool;
  mode : routing_policy.MeshMode;
  replay_prevention : ReplayPrevention;
  mgr_node_id : NodeId
}.

Definition set_replay (m : MeshManager) (rp : ReplayPrevention) : MeshManager :=
  {| enabled := enabled m; mode := mode m; replay_prevention := rp;
     mgr_node_id := mgr_node_id m |}.

(** [MeshManager::determine_routing_policy] *)
Definition determine_routing_policy (m : MeshManager) (message : list Z)
    : routing_policy.RoutingPolicy :=
  if negb (enabled m) then routing_policy.Free
  else routing_policy.determine_policy (mode m) (routing_policy.detect_protocol message).

Section Manager.

Variable sha256 : list Z -> list Z.

(** [PaymentVerifier::verify] (it queries the host over IPC); its error is
    the [to_string] of the verifier's error. *)
Variable verify : PaymentProof -> Result VerificationResult string.

(** The result of [MeshManager::forward_packet] on a packet. *)
Variable forward_packet : MeshPacket -> Result unit MeshError.

(** [MeshManager::route_packet]: the result, the manager afterwards, and
    the packets handed to [forward_packet] (the only path to
    [send_mesh_packet_to_peer]). *)
Definition route_packet (now : Z) (m : MeshManager) (packet : MeshPacket)
    : Result unit MeshError * MeshManager * list MeshPacket :=
  if negb (enabled m) then (Err (MeshDisabled "Mesh is disabled"), m, [])
  else if bool_decide (payload packet = []) then (Err (InvalidPacket EmptyPayload), m, [])
  else if bool_decide (destination packet = zero_node_id)
  then (Err (InvalidPacket ZeroDestination), m, [])
  else match validate packet with
  | Err e => (Err (InvalidPacket (Invalid e)), m, [])
  | Ok _ =>
      let gate : Result unit MeshError * MeshManager :=
        if bool_decide (determine_routing_policy m (payload packet)
                        = routing_policy.PaymentRequired) then
          match payment_proof packet with
          | Some proof =>
              let '(r, rp1) := check_replay sha256 now (replay_prevention m) proof
                                 (source packet) (sequence packet) in
              let m1 := set_replay m rp1 in
              match r with
              | Err e => (Err (ReplayDetected e), m1)
              | Ok _ =>
                  match verify proof with
                  | Err e => (Err (PaymentVerification e), m1)
                  | Ok v =>
                      if verified v then (Ok tt, m1)
                      else (Err (PaymentVerification
                                   (default "Payment verification failed" (vr_error v))), m1)
                  end
              end
          | None => (Err (PaymentVerification "Payment proof required for paid packets"), m)
          end
        else (Ok tt, m) in
      match gate with
      | (Err e, m1) => (Err e, m1, [])
      | (Ok _, m1) => (forward_packet packet, m1, [packet])
      end
  end.

(** [MeshManager::handle_incoming_packet]: the result and the packets
    handed to [forward_packet]. *)
Definition handle_incoming_packet (m : MeshManager) (packet : MeshPacket)
    : Result unit MeshError * list MeshPacket :=
  if negb (enabled m) then (Err (MeshDisabled "Mesh is disabled"), [])
  else match validate packet with
  | Err e => (Err (InvalidPacket (Invalid e)), [])
  | Ok _ =>
      if is_for_me packet (mgr_node_id m) then (Ok tt, [])
      else if should_forward packet (mgr_node_id m) then (forward_packet packet, [packet])
      else (Ok tt, [])
  end.

End Manager.

(** ** Concrete inputs used by the examples below *)

Definition node_a : NodeId := repeat 1 32%nat.
Definition node_b : NodeId := repeat 2 32%nat.
Definition node_c : NodeId := repeat 3 32%nat.

(** A Lightning proof whose invoice expires at the largest [u64]. *)
Definition long_lived_proof : PaymentProof :=
  Lightning "lnbc10n1" (repeat 7 32%nat) 10000 0 (2^64 - 1).

(** A stand-in for SHA-256 (the results above hold for every hash). *)
Definition hash_stand_in (bs : list Z) : list Z := bs.

(** The guard after accepting [long_lived_proof] from [node_a] with
    sequence 5 at time 0 (replay TTL 86400 s). *)
Definition replay_after_first : ReplayPrevention :=
  snd (check_replay hash_stand_in 0 (ReplayPrevention_new 86400) long_lived_proof node_a 5).

(** A routing table holding [node_a] as a direct peer since time 0, swept
    at 7200 s = 2 x its 3600 s route TTL. *)
Definition table_swept_after_two_ttl : RoutingTable :=
  rt_cleanup_expired 7200 (add_direct_peer 0 (RoutingTable_new 3600) node_a [127; 0; 0; 1]).

(** A discovery manager with one pending request (id 1) for [node_c]. *)
Definition discovery_with_request : RouteDiscovery :=
  record_request 0
    {| pending_requests := ∅; request_id_counter := 0;
       routing_table := RoutingTable_new 3600; disc_max_hops := 10;
       timeout_seconds := 30 |}
    node_c node_a.

(** The expiry instant of a proof: [expires_at] for Lightning,
    [timestamp + 24 h] for a template proof. *)
Definition proof_expiry (p : PaymentProof) : Z :=
  match p with
  | Lightning _ _ _ _ expires_at => expires_at
  | InstantSettlement _ _ _ _ timestamp => timestamp + MAX_AGE_SECONDS
  end.

(** A valid packet with a Lightning proof and metadata. *)
Definition sample_packet : MeshPacket :=
  {| version := 1; packet_type := Paid; source := node_a; destination := node_b;
     route := [node_a; node_b]; sequence := 7; timestamp := 1700000000;
     payment_proof := Some long_lived_proof; payload := MESH_PACKET_MAGIC ++ [0; 1];
     metadata := Some {| protocol := Some "mesh-packet"%string;
                         fields := [("app"%string, "chat"%string)] |} |}.

(** A [Paid] packet with no proof and an unclassified payload. *)
Definition paid_packet_without_proof : MeshPacket :=
  {| version := 1; packet_type := Paid; source := node_a; destination := node_b;
     route := [node_a; node_b]; sequence := 1; timestamp := 0;
     payment_proof := None; payload := [0x12; 0x34; 0x56; 0x78]; metadata := None |}.

(** The same without the [Paid] tag. *)
Definition unpaid_packet : MeshPacket :=
  {| version := 1; packet_type := BitcoinP2P; source := node_a; destination := node_b;
     route := [node_a; node_b]; sequence := 1; timestamp := 0;
     payment_proof := None; payload := [0x12; 0x34; 0x56; 0x78]; metadata := None |}.

(** A packet addressed to the zero hash from the zero hash. *)
Definition zero_destination_packet : MeshPacket :=
  {| version := 1; packet_type := BitcoinP2P; source := zero_node_id;
     destination := zero_node_id; route := [zero_node_id]; sequence := 0; timestamp := 0;
     payment_proof := None; payload := [1]; metadata := None |}.

(** An enabled manager in payment-gated mode. *)
Definition gated_manager : MeshManager :=
  {| enabled := true; mode := routing_policy.PaymentGated;
     replay_prevention := ReplayPrevention_new 86400; mgr_node_id := node_c |}.

(** Host stand-ins: a verifier that accepts, a transport that delivers. *)
Definition verify_stub (p : PaymentProof) : Result VerificationResult string :=
  Ok {| verified := true; vr_amount := amount_sats p; vr_timestamp := 0;
        vr_expires_at := None; vr_error := None |}.

Definition forward_stub (p : MeshPacket) : Result unit MeshError := Ok tt.

(** A mainnet Bitcoin [version] header: magic, then the 12-byte NUL-padded
    command. *)
Definition version_message : list Z :=
  [0xF9; 0xBE; 0xB4; 0xD9] ++ string_bytes "version" ++ repeat 0 5%nat.

(** A packet carrying that header. *)
Definition bitcoin_packet : MeshPacket :=
  {| version := 1; packet_type := BitcoinP2P; source := node_a; destination := node_b;
     route := [node_a; node_b]; sequence := 1; timestamp := 0;
     payment_proof := None; payload := version_message; metadata := None |}.

(** The three network magics of [detect_protocol], as the four bytes a
    header starts with. *)
Definition network_magics : list (list Z) :=
  [le_bytes 4 0xd9b4bef9; le_bytes 4 0x0709110b; le_bytes 4 0xdab5bffa].

(** The 12-byte command field of a Bitcoin message header: the command,
    padded with NULs. *)
Definition command_field (c : string) : list Z :=
  string_bytes c ++ repeat 0 (12 - String.length c).

(** ASCII upper case, to state that [MeshMode::from] ignores case. *)
Definition ascii_upper (c : ascii) : ascii :=
  let n := nat_of_ascii c in
  if (97 <=? n)%nat && (n <=? 122)%nat then ascii_of_nat (n - 32) else c.

Definition to_uppercase (s : string) : string :=
  string_of_list_ascii (map ascii_upper (list_ascii_of_string s)).

(** A verifier that reports a failed check. *)
Definition verify_reject (p : PaymentProof) : Result VerificationResult string :=
  Ok {| verified := false; vr_amount := 0; vr_timestamp := 0; vr_expires_at := None;
        vr_error := Some "Payment hash does not match preimage"%string |}.

(** ** Compositions used by the statements below *)

(** Forwarding hops in turn: [add_to_route] of each node, in order. *)
Fixpoint add_all_to_route (nodes : list NodeId) (p : MeshPacket) : Outcome MeshPacket :=
  match nodes with
  | [] => Returned p
  | n :: ns =>
      match add_to_route n p with
      | Returned p' => add_all_to_route ns p'
      | Panicked => Panicked
      end
  end.

(** The last entry of an advertisement whose destination is [n]. *)
Fixpoint last_advertised (n : NodeId) (rs : list (NodeId * NodeId * Z * Z))
    : option (NodeId * NodeId * Z * Z) :=
  match rs with
  | [] => None
  | re :: rs' =>
      match last_advertised n rs' with
      | Some x => Some x
      | None => if bool_decide (re.1.1.1 = n) then Some re else None
      end
  end.

(** The values bincode can carry: a [u32]/[u64] in range, a length that
    fits its [u64] prefix, a [String] that is well-formed UTF-8, a
    [[u8; 32]] of 32 bytes. *)
Definition u32_ok (x : Z) : bool := (0 <=? x) && (x <? 2^32).
Definition u64_ok (x : Z) : bool := (0 <=? x) && (x <? 2^64).
Definition len_ok {A} (l : list A) : bool := Z.of_nat (length l) <? 2^64.
Definition array32_ok (b : list Z) : bool := (length b =? 32)%nat.
Definition string_ok (s : string) : bool :=
  utf8_valid (string_bytes s) && len_ok (string_bytes s).

Definition proof_ok (p : PaymentProof) : bool :=
  match p with
  | Lightning invoice preimage amount_msats timestamp expires_at =>
      string_ok invoice && array32_ok preimage && u64_ok amount_msats
        && u64_ok timestamp && u64_ok expires_at
  | InstantSettlement covenant_proof output_index merkle_proof amount_sats timestamp =>
      len_ok covenant_proof && u32_ok output_index && len_ok merkle_proof
        && forallb array32_ok merkle_proof && u64_ok amount_sats && u64_ok timestamp
  end.

Definition metadata_ok (m : PacketMetadata) : bool :=
  match protocol m with Some s => string_ok s | None => true end
    && len_ok (fields m) && forallb (fun kv => string_ok kv.1 && string_ok kv.2) (fields m).

Definition packet_ok (p : MeshPacket) : bool :=
  array32_ok (source p) && array32_ok (destination p)
    && len_ok (route p) && forallb array32_ok (route p)
    && u64_ok (sequence p) && u64_ok (timestamp p)
    && match payment_proof p with Some q => proof_ok q | None => true end
    && len_ok (payload p)
    && match metadata p with Some m => metadata_ok m | None => true end.

(** ** Replay guard: shared lemmas *)

Lemma replay_cleanup_keeps (now : Z) (rp : ReplayPrevention) (h : list Z) (e : ReplayEntry) :
  replay_data rp !! h = Some e ->
  ~ (u64_add (re_timestamp e) (expiry_seconds rp) < now) ->
  replay_data (replay_cleanup_expired now rp) !! h = Some e.
Proof.
  intros Hh Hkeep. simpl. apply map_lookup_filter_Some_2; [exact Hh | exact Hkeep].
Qed.

Lemma replay_cleanup_sub (now : Z) (rp : ReplayPrevention) (h : list Z) (e : ReplayEntry) :
  replay_data (replay_cleanup_expired now rp) !! h = Some e -> replay_data rp !! h = Some e.
Proof.
  simpl. rewrite map_lookup_filter_Some. tauto.
Qed.

Section ReplayProofs.

Variable sha256 : list Z -> list Z.

(** Every failing [check_replay] leaves the guard as its opening sweep left it. *)
Lemma check_replay_err_state (now : Z) (rp rp' : ReplayPrevention) (proof : PaymentProof)
    (peer : NodeId) (seq : Z) (e : ReplayErr) :
  check_replay sha256 now rp proof peer seq = (Err e, rp') ->
  rp' = replay_cleanup_expired now rp.
Proof.
  unfold check_replay.
  destruct (replay_data (replay_cleanup_expired now rp) !! proof_hash sha256 proof);
    [intros H; inversion H; reflexivity|].
  destruct (sequence_check _ seq); [intros H; inversion H; reflexivity|].
  destruct (is_expired now proof); intros H; inversion H; reflexivity.
Qed.

(** A recorded entry that the clock has not yet expired survives a call,
    that call fails when its proof has the recorded hash, and the expiry
    setting is untouched. *)
Lemma check_replay_keeps (now : Z) (rp : ReplayPrevention) (proof : PaymentProof)
    (peer : NodeId) (seq : Z) (h : list Z) (e : ReplayEntry) :
  replay_data rp !! h = Some e ->
  ~ (u64_add (re_timestamp e) (expiry_seconds rp) < now) ->
  let '(r, rp') := check_replay sha256 now rp proof peer seq in
  (proof_hash sha256 proof = h -> exists err, r = Err err)
  /\ replay_data rp' !! h = Some e
  /\ expiry_seconds rp' = expiry_seconds rp.
Proof.
  intros Hh Hkeep.
  pose proof (replay_cleanup_keeps now rp h e Hh Hkeep) as Hc.
  unfold check_replay.
  destruct (replay_data (replay_cleanup_expired now rp) !! proof_hash sha256 proof)
    as [e'|] eqn:Hq.
  { split; [eauto|]. split; [exact Hc | reflexivity]. }
  destruct (sequence_check _ seq).
  { split; [eauto|]. split; [exact Hc | reflexivity]. }
  destruct (is_expired now proof).
  { split; [eauto|]. split; [exact Hc | reflexivity]. }
  split.
  { intros Heq. rewrite Heq in Hq. congruence. }
  split; [|reflexivity]. simpl.
  rewrite lookup_insert_ne; [exact Hc|].
  intros Heq. rewrite Heq in Hq. congruence.
Qed.

(** Induction over a run: while every clock reading stays within the
    recorded entry's lifetime, no call for its hash succeeds. *)
Lemma run_replay_no_success (ops : list ReplayOp) (rp : ReplayPrevention)
    (h : list Z) (e : ReplayEntry) :
  replay_data rp !! h = Some e ->
  Forall (fun o => ~ (u64_add (re_timestamp e) (expiry_seconds rp) < op_time o)) ops ->
  successes_for h (fst (run_replay sha256 rp ops)) = 0%nat.
Proof.
  revert rp. induction ops as [|o ops IH]; intros rp Hh Hall; [reflexivity|].
  inversion Hall as [|? ? Ho Hrest]; subst.
  destruct o as [now proof peer seq | now]; simpl in Ho |- *.
  - pose proof (check_replay_keeps now rp proof peer seq h e Hh Ho) as Hk.
    destruct (check_replay sha256 now rp proof peer seq) as [r rp1] eqn:Hc.
    destruct Hk as (Hfail & Hh1 & Hexp).
    destruct (run_replay sha256 rp1 ops) as [rs rp2] eqn:Hr.
    assert (Hrs : successes_for h rs = 0%nat).
    { change rs with (fst (rs, rp2)). rewrite <- Hr.
      apply IH; [exact Hh1|]. rewrite Hexp. exact Hrest. }
    simpl. unfold successes_for in *. simpl.
    destruct r as [b|err].
    + case_bool_decide as Heq.
      * destruct (Hfail Heq) as [err Herr]. discriminate.
      * exact Hrs.
    + exact Hrs.
  - apply IH.
    + apply replay_cleanup_keeps; assumption.
    + exact Hrest.
Qed.

End ReplayProofs.

Lemma check_replay_ok_state (sha256 : list Z -> list Z) (now : Z) (rp rp1 : ReplayPrevention)
    (proof : PaymentProof) (peer : NodeId) (seq : Z) (b : bool) :
  check_replay sha256 now rp proof peer seq = (Ok b, rp1) ->
  replay_data rp1 !! proof_hash sha256 proof
    = Some {| re_timestamp := now; re_peer_id := peer; re_sequence := seq |}
  /\ used_sequences rp1 !! peer = Some seq
  /\ expiry_seconds rp1 = expiry_seconds rp.
Proof.
  unfold check_replay.
  destruct (replay_data (replay_cleanup_expired now rp) !! proof_hash sha256 proof);
    [discriminate|].
  destruct (sequence_check _ seq); [discriminate|].
  destruct (is_expired now proof); [discriminate|].
  intros H. inversion H; subst. simpl.
  rewrite !lookup_insert_eq. auto.
Qed.

(** ** Claims on the replay guard *)

(** C10: a failing [check_replay] inserts nothing: [used_sequences] is
    unchanged and [replay_data] is the opening sweep's result, so it only
    lost entries. *)
Theorem check_replay_error_inserts_nothing (sha256 : list Z -> list Z) (now : Z)
    (rp rp' : ReplayPrevention) (proof : PaymentProof) (peer : NodeId) (seq : Z)
    (e : ReplayErr) :
  check_replay sha256 now rp proof peer seq = (Err e, rp') ->
  used_sequences rp' = used_sequences rp
  /\ replay_data rp' = replay_data (replay_cleanup_expired now rp)
  /\ (forall k x, replay_data rp' !! k = Some x -> replay_data rp !! k = Some x).
Proof.
  intros H. apply check_replay_err_state in H. subst rp'.
  split; [reflexivity|]. split; [reflexivity|].
  intros k x. apply replay_cleanup_sub.
Qed.

Lemma check_replay_error_inserts_nothing_witness :
  used_sequences (snd (check_replay hash_stand_in 10 replay_after_first long_lived_proof node_a 5))
  = used_sequences replay_after_first.
Proof.
  refine (proj1 (check_replay_error_inserts_nothing hash_stand_in 10 replay_after_first _
                   long_lived_proof node_a 5 ReplayAlreadyUsed _)).
  vm_compute. reflexivity.
Defined.

(** C2, as stated, fails: once the replay TTL has passed, the sweep forgets
    the hash and the same proof is accepted a second time. *)
Lemma check_replay_second_success_after_expiry :
  ~ (successes_for (proof_hash hash_stand_in long_lived_proof)
       (fst (run_replay hash_stand_in (ReplayPrevention_new 86400)
               [OpCheck 0 long_lived_proof node_a 1;
                OpCheck 86401 long_lived_proof node_a 2])) <= 1)%nat.
Proof. vm_compute. lia. Qed.

(** C2 (amended): once [check_replay] for a proof succeeds at time [now],
    no [check_replay] for a proof with the same hash succeeds at any clock
    reading up to [now + expiry_seconds], whatever the peers, sequences and
    sweeps in between. *)
Theorem check_replay_once_within_expiry (sha256 : list Z -> list Z) (now : Z)
    (rp rp1 : ReplayPrevention) (proof : PaymentProof) (peer : NodeId) (seq : Z)
    (b : bool) (ops : list ReplayOp) :
  check_replay sha256 now rp proof peer seq = (Ok b, rp1) ->
  0 <= now -> 0 <= expiry_seconds rp -> now + expiry_seconds rp < 2^64 ->
  Forall (fun o => op_time o <= now + expiry_seconds rp) ops ->
  successes_for (proof_hash sha256 proof) (fst (run_replay sha256 rp1 ops)) = 0%nat.
Proof.
  intros Hok Hnow Hexp Hlt Hall.
  destruct (check_replay_ok_state sha256 now rp rp1 proof peer seq b Hok) as (Hh & _ & He).
  eapply run_replay_no_success; [exact Hh|].
  eapply Forall_impl; [exact Hall|].
  intros o Ho. simpl in Ho |- *. rewrite He. unfold u64_add.
  rewrite Z.mod_small by lia. lia.
Qed.

Lemma check_replay_once_within_expiry_witness :
  successes_for (proof_hash hash_stand_in long_lived_proof)
    (fst (run_replay hash_stand_in replay_after_first
            [OpCheck 100 long_lived_proof node_b 9; OpCleanup 200;
             OpCheck 86400 long_lived_proof node_a 6])) = 0%nat.
Proof.
  apply (check_replay_once_within_expiry hash_stand_in 0 (ReplayPrevention_new 86400)
           replay_after_first long_lived_proof node_a 5 true).
  - vm_compute. reflexivity.
  - lia.
  - simpl. lia.
  - simpl. lia.
  - repeat constructor; simpl; lia.
Defined.

(** C5, as stated, fails: a stale sequence number whose proof was already
    used is reported as a reused proof, not as out of order. *)
Lemma check_replay_stale_sequence_reports_reuse :
  used_sequences replay_after_first !! node_a = Some 5
  /\ fst (check_replay hash_stand_in 10 replay_after_first long_lived_proof node_a 3)
     = Err ReplayAlreadyUsed.
Proof. vm_compute. split; reflexivity. Qed.

(** C5 (amended): if [used_sequences] holds [L] for the peer, every call
    with sequence [<= L] fails: with the out-of-order error, or with the
    already-used error when the proof's hash is recorded (that test runs
    first). A call with sequence [> L], or from an unseen peer, never fails
    the sequence test. *)
Theorem check_replay_sequence_gate (sha256 : list Z -> list Z) (now : Z)
    (rp : ReplayPrevention) (proof : PaymentProof) (peer : NodeId) (seq : Z) :
  (forall L, used_sequences rp !! peer = Some L -> seq <= L ->
     fst (check_replay sha256 now rp proof peer seq)
     = Err (match replay_data (replay_cleanup_expired now rp) !! proof_hash sha256 proof with
            | Some _ => ReplayAlreadyUsed
            | None => SequenceOutOfOrder seq L
            end))
  /\ ((forall L, used_sequences rp !! peer = Some L -> L < seq) ->
      forall got expected,
        fst (check_replay sha256 now rp proof peer seq) <> Err (SequenceOutOfOrder got expected)).
Proof.
  unfold check_replay. split.
  - intros L HL Hle.
    destruct (replay_data (replay_cleanup_expired now rp) !! proof_hash sha256 proof);
      [reflexivity|].
    simpl. rewrite HL. unfold sequence_check.
    rewrite (proj2 (Z.leb_le seq L) Hle). reflexivity.
  - intros Hgt got expected.
    destruct (replay_data (replay_cleanup_expired now rp) !! proof_hash sha256 proof);
      [simpl; congruence|].
    simpl. destruct (used_sequences rp !! peer) as [L|] eqn:HL; simpl.
    + specialize (Hgt L eq_refl).
      destruct (seq <=? L) eqn:Hle; [apply Z.leb_le in Hle; lia|].
      destruct (is_expired now proof); simpl; congruence.
    + destruct (is_expired now proof); simpl; congruence.
Qed.

(** ** Claims on the routing table *)

(** C3, as stated, fails: the pinned direct peer survives the sweep but
    [find_route] applies the TTL to it and returns nothing. *)
Lemma direct_peer_unroutable_after_two_ttl :
  fst (find_route 7200 table_swept_after_two_ttl node_a) = None.
Proof. vm_compute. reflexivity. Qed.

(** C3 (amended): after [add_direct_peer n address] at [t0], a clock
    advance of twice the route TTL and [cleanup_expired], the entry of [n]
    is still in [routes], unchanged (pinned); [find_route n] returns
    nothing, since it applies the TTL to every entry; [discover_route n src]
    returns the direct route [[src; n]]. *)
Theorem direct_peer_pinned_not_found (t : RoutingTable) (n src : NodeId)
    (address : list Z) (t0 : Z) (d : RouteDiscovery) :
  0 <= t0 -> 0 < route_expiry_seconds t ->
  t0 + 2 * route_expiry_seconds t < 2^64 ->
  let now := t0 + 2 * route_expiry_seconds t in
  let t2 := rt_cleanup_expired now (add_direct_peer t0 t n address) in
  routes t2 !! n = Some {| node_id := n; direct_address := Some address; next_hop := None;
                           route_path := [n]; route_cost := 0; last_updated := t0;
                           quality_score := 1 |}
  /\ fst (find_route now t2 n) = None
  /\ fst (discover_route now (set_routing_table d t2) n src) = Some [src; n].
Proof.
  intros H0 Httl Hlt now t2.
  assert (Hr : routes t2 !! n
               = Some {| node_id := n; direct_address := Some address; next_hop := None;
                         route_path := [n]; route_cost := 0; last_updated := t0;
                         quality_score := 1 |}).
  { unfold t2; simpl. apply map_lookup_filter_Some_2.
    - apply lookup_insert_eq.
    - simpl. intros [_ Hx]. discriminate. }
  assert (Hf : find_route now t2 n = (None, t2)).
  { unfold find_route. replace (route_cache t2 !! n) with (@None (list NodeId))
      by (unfold t2; simpl; rewrite lookup_empty; reflexivity).
    rewrite Hr. simpl. replace (route_expiry_seconds t2) with (route_expiry_seconds t)
      by reflexivity.
    unfold u64_add. rewrite Z.mod_small by lia.
    destruct (now <=? t0 + route_expiry_seconds t) eqn:Hle; [|reflexivity].
    apply Z.leb_le in Hle. unfold now in Hle. lia. }
  clearbody t2.
  split; [exact Hr|]. split; [rewrite Hf; reflexivity|].
  unfold discover_route. simpl routing_table. rewrite Hf. simpl.
  rewrite Hr. reflexivity.
Qed.

Lemma direct_peer_pinned_not_found_witness :
  routes table_swept_after_two_ttl !! node_a
    = Some {| node_id := node_a; direct_address := Some [127; 0; 0; 1]; next_hop := None;
              route_path := [node_a]; route_cost := 0; last_updated := 0;
              quality_score := 1 |}.
Proof.
  refine (proj1 (direct_peer_pinned_not_found (RoutingTable_new 3600) node_a node_b
                   [127; 0; 0; 1] 0 discovery_with_request _ _ _)).
  - lia.
  - simpl. lia.
  - simpl. lia.
Defined.

(** Below the [u64] wrap the split is the truncated 60/30/10 formula. *)
Lemma calculate_routing_fee_no_wrap (route : list NodeId) (fee : Z) :
  0 <= fee -> 60 * fee < 2^64 ->
  fee_destination (calculate_routing_fee route fee) = 60 * fee / 100
  /\ fee_source (calculate_routing_fee route fee) = 10 * fee / 100
  /\ fee_intermediate (calculate_routing_fee route fee)
     = (if (2 <? length route)%nat then 30 * fee / 100 / Z.of_nat (length route - 2) else 0).
Proof.
  intros H0 H60. unfold calculate_routing_fee, u64_mul; simpl.
  rewrite !Z.mod_small by lia.
  split; [f_equal; lia|]. split; [f_equal; lia|].
  destruct (2 <? length route)%nat; [|reflexivity].
  f_equal. f_equal. lia.
Qed.

Example calculate_routing_fee_1000_three_hops :
  let fee := calculate_routing_fee [node_a; node_b; node_c] 1000 in
  (fee_destination fee, fee_intermediate fee, fee_source fee) = (600, 300, 100).
Proof. reflexivity. Qed.

(** C8 (code defect): for a base fee near the top of [u64], [total_fee * 60]
    overflows; with wrapping arithmetic the destination share is not
    [60F/100] (a debug build panics instead). *)
Theorem routing_fee_overflows_for_large_fee :
  let fee := calculate_routing_fee [node_a; node_b; node_c] (2^64 - 1) in
  fee_destination fee = 184467440737095515
  /\ fee_destination fee <> 60 * (2^64 - 1) / 100
  /\ fee_intermediate fee <> 30 * (2^64 - 1) / 100 / 1.
Proof. vm_compute. split; [reflexivity|]. split; discriminate. Qed.

(** ** Claims on payment proofs *)

(** C4, as stated, fails: a Lightning proof is not expired at the instant
    [now = expires_at]. *)
Lemma proof_not_expired_at_boundary :
  is_expired 100 (Lightning "lnbc10n1" (repeat 7 32%nat) 10000 0 100) = false.
Proof. reflexivity. Qed.

(** C4 (amended): [is_expired] holds exactly when [now] is strictly past the
    proof's expiry ([expires_at], or [timestamp + 24 h] for template
    proofs); at [now] equal to the expiry it is false. *)
Theorem is_expired_strictly_after (now : Z) (p : PaymentProof) :
  0 <= proof_expiry p < 2^64 ->
  (is_expired now p = true <-> proof_expiry p < now)
  /\ is_expired (proof_expiry p) p = false.
Proof.
  destruct p as [inv pre amt ts exp | cov idx merkle amt ts]; simpl; intros Hr.
  - rewrite Z.ltb_lt, Z.ltb_irrefl. tauto.
  - unfold u64_add. rewrite Z.mod_small by (unfold MAX_AGE_SECONDS in *; lia).
    rewrite Z.ltb_lt, Z.ltb_irrefl. tauto.
Qed.

Lemma is_expired_strictly_after_witness :
  is_expired 100 (Lightning "lnbc10n1" (repeat 7 32%nat) 10000 0 100) = false.
Proof.
  refine (proj2 (is_expired_strictly_after 0
                   (Lightning "lnbc10n1" (repeat 7 32%nat) 10000 0 100) _)).
  simpl. lia.
Defined.

(** ** Claims on route discovery *)

(** C9: [handle_route_response] panics on a response to a pending request
    whose route has fewer than two nodes ([route[1]] is out of range). *)
Theorem handle_route_response_panics_on_short_route (now : Z) (d : RouteDiscovery)
    (dest src from : NodeId) (request_id cost : Z) (route : list NodeId) :
  is_Some (pending_requests d !! request_id) ->
  (length route < 2)%nat ->
  handle_route_response now d (RouteResponse dest src request_id route cost) from = Panicked.
Proof.
  intros [req Hreq] Hlen. unfold handle_route_response. rewrite Hreq.
  unfold index. replace (nth_error route 1) with (@None NodeId); [reflexivity|].
  symmetry. apply nth_error_None. lia.
Qed.

Lemma handle_route_response_panics_on_short_route_witness :
  handle_route_response 5 discovery_with_request (RouteResponse node_c node_a 1 [node_c] 100)
    node_b = Panicked.
Proof.
  apply handle_route_response_panics_on_short_route.
  - vm_compute. eexists. reflexivity.
  - simpl. lia.
Defined.

(** ** Claims on packets and the codec *)

Lemma validate_ok_version (p : MeshPacket) :
  validate p = Ok tt -> version p = MESH_PACKET_VERSION.
Proof.
  unfold validate. destruct (version p =? MESH_PACKET_VERSION) eqn:E; simpl.
  - intros _. apply Z.eqb_eq. exact E.
  - discriminate.
Qed.

(** The decoder reads back what the encoder writes, once the magic is
    removed. *)
Example decode_stripped_sample_packet :
  p_packet (enc_packet sample_packet) = Some (sample_packet, []).
Proof. vm_compute. reflexivity. Qed.

(** C1 (code defect): [deserialize_mesh_packet] never strips the "MESH"
    prefix that [serialize_mesh_packet] writes, so bincode reads 'M' as the
    version and "ESH" plus the real version byte as the [PacketType] index
    (0x01485345), and every serialized packet fails to deserialize. *)
Theorem serialize_then_deserialize_fails (p : MeshPacket) (bytes : list Z) :
  serialize_mesh_packet p = Ok bytes ->
  deserialize_mesh_packet bytes = Err (InvalidPacket DeserializeFailed).
Proof.
  unfold serialize_mesh_packet. destruct (validate p) as [[]|e] eqn:Hv; [|discriminate].
  intros H. inversion H; subst bytes; clear H.
  pose proof (validate_ok_version p Hv) as Hver.
  unfold enc_packet. rewrite Hver. reflexivity.
Qed.

Lemma serialize_then_deserialize_fails_witness :
  deserialize_mesh_packet (MESH_PACKET_MAGIC ++ enc_packet sample_packet)
  = Err (InvalidPacket DeserializeFailed).
Proof.
  apply (serialize_then_deserialize_fails sample_packet). vm_compute. reflexivity.
Defined.

(** C7, as stated, fails: [validate] accepts a packet addressed to the
    zero hash. *)
Lemma validate_accepts_zero_destination :
  destination zero_destination_packet = zero_node_id
  /\ validate zero_destination_packet = Ok tt.
Proof. split; reflexivity. Qed.

(** C7 (amended): [validate] enforces exactly version, estimated size,
    route start and route end, and proof-for-[Paid]; it has no zero-hash
    test. The zero destination is refused by [route_packet] before it calls
    [validate] (with nothing forwarded and the guard untouched). *)
Theorem validate_has_no_zero_destination_check (p : MeshPacket) :
  (validate p = Ok tt <->
     version p = MESH_PACKET_VERSION
     /\ serialized_size p <= MAX_PACKET_SIZE
     /\ head (route p) = Some (source p)
     /\ last (route p) = Some (destination p)
     /\ ~ (packet_type p = Paid /\ payment_proof p = None))
  /\ (forall (sha256 : list Z -> list Z) (verify : PaymentProof -> Result VerificationResult string)
             (fwd : MeshPacket -> Result unit MeshError) (now : Z) (m : MeshManager),
        enabled m = true -> payload p <> [] -> destination p = zero_node_id ->
        route_packet sha256 verify fwd now m p = (Err (InvalidPacket ZeroDestination), m, [])).
Proof.
  split.
  - unfold validate. split.
    + destruct (version p =? MESH_PACKET_VERSION) eqn:E1; simpl; [|discriminate].
      destruct (MAX_PACKET_SIZE <? serialized_size p) eqn:E2; [discriminate|].
      destruct (route p) as [|r0 rs]; [discriminate|].
      case_bool_decide as E3; simpl; [|discriminate].
      case_bool_decide as E4; simpl; [|discriminate].
      case_bool_decide as E5; case_bool_decide as E6; simpl; try discriminate;
        intros _; apply Z.eqb_eq in E1; apply Z.ltb_ge in E2;
        (repeat split; [assumption | assumption | simpl; congruence | assumption |]);
        intros [Ht Hn]; try congruence; rewrite Hn in E6; destruct E6; discriminate.
    + intros (E1 & E2 & E3 & E4 & E5).
      rewrite E1, Z.eqb_refl. simpl.
      replace (MAX_PACKET_SIZE <? serialized_size p) with false
        by (symmetry; apply Z.ltb_ge; exact E2).
      destruct (route p) as [|r0 rs]; [discriminate|].
      simpl in E3. injection E3 as E3.
      rewrite bool_decide_eq_true_2 by exact E3. simpl.
      rewrite bool_decide_eq_true_2 by exact E4. simpl.
      case_bool_decide as E6; case_bool_decide as E7; simpl; try reflexivity.
      exfalso. apply E5. split; [exact E6|].
      destruct (payment_proof p); [destruct E7; eexists; reflexivity | reflexivity].
  - intros sha256 verify fwd now m Hen Hpay Hzero. unfold route_packet.
    rewrite Hen. simpl.
    rewrite bool_decide_eq_false_2 by exact Hpay.
    rewrite bool_decide_eq_true_2 by exact Hzero.
    reflexivity.
Qed.

Lemma validate_has_no_zero_destination_check_witness :
  route_packet hash_stand_in verify_stub forward_stub 0 gated_manager zero_destination_packet
  = (Err (InvalidPacket ZeroDestination), gated_manager, []).
Proof.
  apply (proj2 (validate_has_no_zero_destination_check zero_destination_packet)).
  - reflexivity.
  - simpl. discriminate.
  - reflexivity.
Defined.

(** ** Claims on the forwarder *)

(** C6, as stated, fails: a [Paid] packet with no proof whose payload needs
    payment is refused by [validate] first, with [InvalidPacket], not with
    [PaymentVerification]. *)
Lemma paid_packet_without_proof_fails_validation :
  routing_policy.determine_policy routing_policy.PaymentGated
    (routing_policy.detect_protocol (payload paid_packet_without_proof))
    = routing_policy.PaymentRequired
  /\ payment_proof paid_packet_without_proof = None
  /\ route_packet hash_stand_in verify_stub forward_stub 0 gated_manager paid_packet_without_proof
     = (Err (InvalidPacket (Invalid PaidWithoutProof)), gated_manager, []).
Proof. vm_compute. repeat split; reflexivity. Qed.

(** C6 (amended): when the payload's policy is [PaymentRequired] and the
    packet carries no proof, [route_packet] fails without forwarding and
    without touching the replay guard; the error is
    [PaymentVerification "Payment proof required for paid packets"] when
    the packet passes the earlier checks (mesh enabled, non-empty payload,
    non-zero destination, [validate]), and otherwise the error of the
    first of these checks that fails. *)
Theorem route_packet_missing_proof_not_forwarded (sha256 : list Z -> list Z)
    (verify : PaymentProof -> Result VerificationResult string)
    (fwd : MeshPacket -> Result unit MeshError) (now : Z) (m : MeshManager)
    (packet : MeshPacket) :
  payment_proof packet = None ->
  routing_policy.determine_policy (mode m) (routing_policy.detect_protocol (payload packet))
    = routing_policy.PaymentRequired ->
  let '(r, m', forwarded) := route_packet sha256 verify fwd now m packet in
  forwarded = [] /\ m' = m
  /\ r = (if negb (enabled m) then Err (MeshDisabled "Mesh is disabled")
         else if bool_decide (payload packet = []) then Err (InvalidPacket EmptyPayload)
         else if bool_decide (destination packet = zero_node_id)
         then Err (InvalidPacket ZeroDestination)
         else match validate packet with
              | Err e => Err (InvalidPacket (Invalid e))
              | Ok _ => Err (PaymentVerification "Payment proof required for paid packets")
              end)
  /\ (enabled m = true -> payload packet <> [] -> destination packet <> zero_node_id ->
      validate packet = Ok tt ->
      r = Err (PaymentVerification "Payment proof required for paid packets")).
Proof.
  intros Hnone Hpol. unfold route_packet.
  destruct (enabled m) eqn:Hen; simpl; [|repeat split; eauto; discriminate].
  case_bool_decide as Hp; [repeat split; eauto; intros _ Hne; contradiction|].
  case_bool_decide as Hd; [repeat split; eauto; intros _ _ Hnz; contradiction|].
  destruct (validate packet) as [[]|e] eqn:Hv; [|repeat split; eauto; discriminate].
  unfold determine_routing_policy. rewrite Hen. simpl. rewrite Hpol.
  rewrite bool_decide_eq_true_2 by reflexivity. rewrite Hnone.
  repeat split; eauto.
Qed.

Lemma route_packet_missing_proof_not_forwarded_witness :
  let '(r, m', forwarded) :=
    route_packet hash_stand_in verify_stub forward_stub 0 gated_manager unpaid_packet in
  forwarded = [] /\ m' = gated_manager
  /\ r = (if negb (enabled gated_manager) then Err (MeshDisabled "Mesh is disabled")
         else if bool_decide (payload unpaid_packet = []) then Err (InvalidPacket EmptyPayload)
         else if bool_decide (destination unpaid_packet = zero_node_id)
         then Err (InvalidPacket ZeroDestination)
         else match validate unpaid_packet with
              | Err e => Err (InvalidPacket (Invalid e))
              | Ok _ => Err (PaymentVerification "Payment proof required for paid packets")
              end)
  /\ (enabled gated_manager = true -> payload unpaid_packet <> [] ->
      destination unpaid_packet <> zero_node_id -> validate unpaid_packet = Ok tt ->
      r = Err (PaymentVerification "Payment proof required for paid packets")).
Proof.
  apply (route_packet_missing_proof_not_forwarded hash_stand_in verify_stub forward_stub 0
           gated_manager unpaid_packet).
  - reflexivity.
  - vm_compute. reflexivity.
Defined.

(** ** Packets: construction, forwarding hops *)

(** The conditions [validate] accepts, read off its checks. *)
Lemma validate_ok_iff (p : MeshPacket) :
  validate p = Ok tt <->
  version p = MESH_PACKET_VERSION /\ serialized_size p <= MAX_PACKET_SIZE
  /\ (exists rest, route p = source p :: rest)
  /\ last (route p) = Some (destination p)
  /\ (packet_type p = Paid -> is_Some (payment_proof p)).
Proof.
  unfold validate.
  destruct (version p =? MESH_PACKET_VERSION) eqn:Ev; simpl;
    [apply Z.eqb_eq in Ev | apply Z.eqb_neq in Ev];
    [|split; [discriminate | intros (H & _); contradiction]].
  destruct (MAX_PACKET_SIZE <? serialized_size p) eqn:Es;
    [apply Z.ltb_lt in Es | apply Z.ltb_ge in Es].
  { split; [discriminate | intros (_ & H & _); lia]. }
  destruct (route p) as [|r0 rest] eqn:Er.
  { split; [discriminate | intros (_ & _ & [r H] & _); discriminate]. }
  case_bool_decide as H0; simpl.
  2:{ split; [discriminate | intros (_ & _ & [r H] & _); congruence]. }
  case_bool_decide as H1; simpl.
  2:{ split; [discriminate | intros (_ & _ & _ & H & _); contradiction]. }
  destruct (bool_decide (packet_type p = Paid)) eqn:Ep; simpl;
    [apply bool_decide_eq_true in Ep | apply bool_decide_eq_false in Ep].
  - destruct (bool_decide (is_Some (payment_proof p))) eqn:Eq; simpl;
      [apply bool_decide_eq_true in Eq | apply bool_decide_eq_false in Eq].
    + split; [intros _ | reflexivity]. subst r0.
      repeat split; eauto.
    + split; [discriminate | intros (_ & _ & _ & _ & H); tauto].
  - split; [intros _ | reflexivity]. subst r0.
    repeat split; eauto. intros; contradiction.
Qed.

(** [add_to_route] on a route [init ++ [l]] not holding [node]. *)
Lemma add_to_route_snoc (node l : NodeId) (init : list NodeId) (p : MeshPacket) :
  route p = init ++ [l] -> node ∉ route p ->
  add_to_route node p = Returned (set_route p (init ++ [node; l])).
Proof.
  intros Hr Hn. unfold add_to_route. rewrite (bool_decide_eq_false_2 _ Hn), Hr.
  replace (length (init ++ [l]) - 1)%nat with (length init)
    by (rewrite length_app; simpl; lia).
  unfold vec_insert.
  rewrite (proj2 (Nat.ltb_ge _ _)) by (rewrite length_app; simpl; lia).
  rewrite take_app_length, drop_app_length.
  destruct init; reflexivity.
Qed.

Lemma add_to_route_mem (node : NodeId) (p : MeshPacket) :
  node ∈ route p -> add_to_route node p = Returned p.
Proof.
  intros Hn. unfold add_to_route. rewrite (bool_decide_eq_true_2 _ Hn). reflexivity.
Qed.

Lemma position_app (x : NodeId) (pre post : list NodeId) :
  x ∉ pre -> position x (pre ++ x :: post) = Some (length pre).
Proof.
  induction pre as [|y pre IH]; intros Hx; simpl.
  - rewrite bool_decide_eq_true_2 by reflexivity. reflexivity.
  - rewrite bool_decide_eq_false_2.
    + rewrite IH; [reflexivity|]. intros H. apply Hx. right. exact H.
    + intros ->. apply Hx. left.
Qed.

(** [add_to_route] keeps every field but the route, and the route's last
    element. *)
Lemma add_to_route_frame (node : NodeId) (p : MeshPacket) :
  route p <> [] ->
  exists p', add_to_route node p = Returned p' /\ p' = set_route p (route p')
             /\ route p' <> [] /\ last (route p') = last (route p).
Proof.
  intros Hne. destruct (exists_last Hne) as (init & l & Hr).
  destruct (decide (node ∈ route p)) as [Hin|Hin].
  - exists p. rewrite add_to_route_mem by exact Hin.
    split; [reflexivity|]. split; [destruct p; reflexivity|]. auto.
  - exists (set_route p (init ++ [node; l])).
    rewrite (add_to_route_snoc node l init p Hr Hin). split; [reflexivity|].
    simpl. split; [reflexivity|]. split.
    + destruct init; discriminate.
    + rewrite Hr. change (init ++ [node; l]) with (init ++ [node] ++ [l]).
      rewrite app_assoc, !last_snoc. reflexivity.
Qed.

Lemma add_all_to_route_frame (nodes : list NodeId) (p : MeshPacket) :
  route p <> [] ->
  exists p', add_all_to_route nodes p = Returned p' /\ p' = set_route p (route p')
             /\ route p' <> [] /\ last (route p') = last (route p).
Proof.
  revert p. induction nodes as [|n ns IH]; intros p Hne; simpl.
  - exists p. split; [reflexivity|]. split; [destruct p; reflexivity|]. auto.
  - destruct (add_to_route_frame n p Hne) as (p1 & -> & Hp1 & Hne1 & Hl1).
    destruct (IH p1 Hne1) as (p2 & -> & Hp2 & Hne2 & Hl2).
    exists p2. split; [reflexivity|]. split.
    + rewrite Hp2 at 1. rewrite Hp1. destruct p; reflexivity.
    + split; [exact Hne2|]. congruence.
Qed.

(** [add_to_route] on a non-empty route returns: the same packet with a
    route that holds [node] and ends where it ended, grown by at most one
    element; a second call changes nothing. *)
Theorem add_to_route_result (node : NodeId) (p : MeshPacket) :
  route p <> [] ->
  exists p', add_to_route node p = Returned p'
    /\ p' = set_route p (route p')
    /\ node ∈ route p'
    /\ last (route p') = last (route p)
    /\ (route p' = route p \/ length (route p') = S (length (route p)))
    /\ add_to_route node p' = Returned p'.
Proof.
  intros Hne. destruct (exists_last Hne) as (init & l & Hr).
  destruct (decide (node ∈ route p)) as [Hin|Hin].
  - exists p. rewrite add_to_route_mem by exact Hin.
    split; [reflexivity|]. split; [destruct p; reflexivity|].
    split; [exact Hin|]. split; [reflexivity|]. split; [left; reflexivity|].
    reflexivity.
  - exists (set_route p (init ++ [node; l])).
    rewrite (add_to_route_snoc node l init p Hr Hin).
    assert (Hn : node ∈ init ++ [node; l]) by (apply elem_of_app; right; left).
    repeat split; simpl.
    + exact Hn.
    + rewrite Hr. change (init ++ [node; l]) with (init ++ [node] ++ [l]).
      rewrite app_assoc, !last_snoc. reflexivity.
    + right. rewrite Hr, !length_app. simpl. lia.
    + rewrite add_to_route_mem by exact Hn. reflexivity.
Qed.

Lemma add_to_route_result_witness :
  exists p', add_to_route node_c unpaid_packet = Returned p'
    /\ p' = set_route unpaid_packet (route p')
    /\ node_c ∈ route p'
    /\ last (route p') = last (route unpaid_packet)
    /\ (route p' = route unpaid_packet
        \/ length (route p') = S (length (route unpaid_packet)))
    /\ add_to_route node_c p' = Returned p'.
Proof.
  apply (add_to_route_result node_c unpaid_packet). discriminate.
Defined.

(** A packet built by [MeshPacket::new] or [MeshPacket::new_paid] with
    [source <> destination] never passes [validate], whatever nodes are
    then added with [add_to_route]: its route keeps ending with [source]. *)
Theorem new_packet_never_validates (now : Z) (ty : PacketType) (s d : NodeId)
    (payload : list Z) (proof : PaymentProof) (nodes : list NodeId) :
  s <> d ->
  (exists p', add_all_to_route nodes (MeshPacket_new now ty s d payload) = Returned p'
              /\ validate p' <> Ok tt)
  /\ (exists p', add_all_to_route nodes (new_paid now s d payload proof) = Returned p'
                 /\ validate p' <> Ok tt).
Proof.
  intros Hsd.
  assert (Hgen : forall p, route p = [s] -> destination p = d ->
            exists p', add_all_to_route nodes p = Returned p' /\ validate p' <> Ok tt).
  { intros p Hr Hd.
    destruct (add_all_to_route_frame nodes p) as (p' & Hp' & Hset & _ & Hl);
      [rewrite Hr; discriminate|].
    exists p'. split; [exact Hp'|]. intros Hv.
    apply validate_ok_iff in Hv as (_ & _ & _ & Hlast & _).
    rewrite Hl, Hr in Hlast. rewrite Hset in Hlast. simpl in Hlast.
    rewrite Hd in Hlast. apply Hsd. congruence. }
  split; apply Hgen; reflexivity.
Qed.

Lemma new_packet_never_validates_witness :
  (exists p', add_all_to_route [node_c] (MeshPacket_new 0 BitcoinP2P node_a node_b [1])
                = Returned p' /\ validate p' <> Ok tt)
  /\ (exists p', add_all_to_route [node_c] (new_paid 0 node_a node_b [1] long_lived_proof)
                   = Returned p' /\ validate p' <> Ok tt).
Proof.
  apply (new_packet_never_validates 0 BitcoinP2P node_a node_b [1] long_lived_proof [node_c]).
  discriminate.
Defined.

(** A forwarding node that is not yet on a valid packet's route (of at
    least two nodes) keeps it valid by [add_to_route], as long as the 32
    more bytes fit the size estimate, and its next hop is then the
    destination. *)
Theorem add_to_route_keeps_valid (node : NodeId) (p : MeshPacket) :
  validate p = Ok tt -> (2 <= length (route p))%nat -> node ∉ route p ->
  serialized_size p + 32 <= MAX_PACKET_SIZE ->
  exists p', add_to_route node p = Returned p' /\ validate p' = Ok tt
             /\ get_next_hop p' node = Some (destination p).
Proof.
  intros Hv Hlen Hn Hsz.
  assert (Hne : route p <> []) by (intros E; rewrite E in Hlen; simpl in Hlen; lia).
  destruct (exists_last Hne) as (init & l & Hr).
  exists (set_route p (init ++ [node; l])).
  rewrite (add_to_route_snoc node l init p Hr Hn). split; [reflexivity|].
  apply validate_ok_iff in Hv as (Hver & Hs & (rest & Hrest) & Hlast & Hpaid).
  rewrite Hr, last_snoc in Hlast. injection Hlast as ->.
  destruct init as [|i0 init'].
  { rewrite Hr in Hlen. simpl in Hlen. lia. }
  rewrite Hr in Hrest. injection Hrest as Hi0 _.
  split.
  - apply validate_ok_iff. simpl. repeat split.
    + exact Hver.
    + clear Hs. unfold serialized_size in *. simpl. rewrite Hr in Hsz.
      rewrite !length_app in *. simpl length in *. lia.
    + exists (init' ++ [node; destination p]). rewrite Hi0. reflexivity.
    + replace (i0 :: init' ++ [node; destination p])
        with ((i0 :: init' ++ [node]) ++ [destination p])
        by (simpl; rewrite <- app_assoc; reflexivity).
      apply last_snoc.
    + exact Hpaid.
  - unfold get_next_hop. simpl route.
    change (i0 :: init' ++ [node; destination p])
      with ((i0 :: init') ++ node :: [destination p]).
    rewrite position_app by (intros H; apply Hn; rewrite Hr; apply elem_of_app; left; exact H).
    rewrite (proj2 (Nat.ltb_lt _ _)) by (rewrite length_app; simpl; lia).
    rewrite nth_error_app2 by lia.
    replace (S (length (i0 :: init')) - length (i0 :: init'))%nat with 1%nat by lia.
    reflexivity.
Qed.

Lemma add_to_route_keeps_valid_witness :
  exists p', add_to_route node_c unpaid_packet = Returned p' /\ validate p' = Ok tt
             /\ get_next_hop p' node_c = Some (destination unpaid_packet).
Proof.
  apply (add_to_route_keeps_valid node_c unpaid_packet).
  - reflexivity.
  - simpl. lia.
  - apply (bool_decide_eq_false (node_c ∈ route unpaid_packet)). vm_compute. reflexivity.
  - vm_compute. discriminate.
Defined.

(** On a packet that passes [validate], a node for which [should_forward]
    holds has a next hop: the node after its first place in the route. *)
Theorem valid_should_forward_next_hop (p : MeshPacket) (me : NodeId) :
  validate p = Ok tt -> should_forward p me = true ->
  exists pre h post, route p = pre ++ me :: h :: post /\ (me ∉ pre)
                     /\ get_next_hop p me = Some h.
Proof.
  intros Hv Hf. unfold should_forward, is_for_me in Hf.
  case_bool_decide as Hd; [discriminate|].
  apply bool_decide_eq_true in Hf.
  destruct (list_elem_of_split_l _ _ Hf) as (pre & post & Hr & Hpre).
  apply validate_ok_iff in Hv as (_ & _ & _ & Hlast & _).
  destruct post as [|h post].
  { rewrite Hr, last_snoc in Hlast. congruence. }
  exists pre, h, post. split; [exact Hr|]. split; [exact Hpre|].
  unfold get_next_hop. rewrite Hr, position_app by exact Hpre.
  rewrite (proj2 (Nat.ltb_lt _ _)) by (rewrite length_app; simpl; lia).
  rewrite nth_error_app2 by lia.
  replace (S (length pre) - length pre)%nat with 1%nat by lia.
  reflexivity.
Qed.

Lemma valid_should_forward_next_hop_witness :
  exists pre h post, route sample_packet = pre ++ node_a :: h :: post /\ (node_a ∉ pre)
                     /\ get_next_hop sample_packet node_a = Some h.
Proof.
  apply (valid_should_forward_next_hop sample_packet node_a).
  - reflexivity.
  - reflexivity.
Defined.

(** [handle_incoming_packet] hands a packet to [forward_packet] (and
    returns its result) exactly when the mesh is enabled, the packet
    passes [validate], it is not addressed to this node and this node is
    on its route; no payment check is made on this path. *)
Theorem handle_incoming_packet_forwards_iff (fwd : MeshPacket -> Result unit MeshError)
    (m : MeshManager) (p : MeshPacket) :
  handle_incoming_packet fwd m p = (fwd p, [p]) <->
  enabled m = true /\ validate p = Ok tt /\ destination p <> mgr_node_id m
  /\ mgr_node_id m ∈ route p.
Proof.
  unfold handle_incoming_packet, should_forward, is_for_me.
  destruct (enabled m); simpl.
  2:{ split; [intros H; inversion H | intros (H & _); discriminate]. }
  destruct (validate p) as [[]|e].
  2:{ split; [intros H; inversion H | intros (_ & H & _); discriminate]. }
  case_bool_decide as Hd.
  { split; [intros H; inversion H | intros (_ & _ & H & _); contradiction]. }
  case_bool_decide as Hin.
  { split; [intros _; auto | reflexivity]. }
  { split; [intros H; inversion H | intros (_ & _ & _ & H); contradiction]. }
Qed.

(** ** The forwarder: free and paid paths *)

Lemma check_replay_ok_true (sha256 : list Z -> list Z) (now : Z) (rp rp1 : ReplayPrevention)
    (proof : PaymentProof) (peer : NodeId) (seq : Z) (b : bool) :
  check_replay sha256 now rp proof peer seq = (Ok b, rp1) -> b = true.
Proof.
  unfold check_replay.
  destruct (replay_data (replay_cleanup_expired now rp) !! proof_hash sha256 proof);
    [discriminate|].
  destruct (sequence_check _ seq); [discriminate|].
  destruct (is_expired now proof); [discriminate|].
  intros H. inversion H. reflexivity.
Qed.

Ltac nil_neq_nil := let H := fresh in intros H; exfalso; apply H; reflexivity.

(** A packet that passes the early checks and [validate] and is classified
    [Free] is handed to [forward_packet] and the manager (its replay guard
    included) is left as it was. *)
Theorem route_packet_free_forwards (sha256 : list Z -> list Z)
    (verify : PaymentProof -> Result VerificationResult string)
    (fwd : MeshPacket -> Result unit MeshError) (now : Z) (m : MeshManager) (p : MeshPacket) :
  enabled m = true -> payload p <> [] -> destination p <> zero_node_id ->
  validate p = Ok tt ->
  determine_routing_policy m (payload p) = routing_policy.Free ->
  route_packet sha256 verify fwd now m p = (fwd p, m, [p]).
Proof.
  intros He Hp Hz Hv Hpol. unfold route_packet.
  rewrite He, (bool_decide_eq_false_2 _ Hp), (bool_decide_eq_false_2 _ Hz), Hv, Hpol.
  reflexivity.
Qed.

Lemma route_packet_free_forwards_witness :
  route_packet hash_stand_in verify_stub forward_stub 0 gated_manager bitcoin_packet
    = (forward_stub bitcoin_packet, gated_manager, [bitcoin_packet]).
Proof.
  apply route_packet_free_forwards.
  - reflexivity.
  - discriminate.
  - vm_compute. discriminate.
  - reflexivity.
  - reflexivity.
Defined.

(** [route_packet] hands a packet to [forward_packet] only after the early
    checks and [validate] pass, and, when the payload is classified
    [PaymentRequired], only when the packet carries a proof that the replay
    guard accepts and the verifier reports as verified. *)
Theorem route_packet_forward_requires_payment (sha256 : list Z -> list Z)
    (verify : PaymentProof -> Result VerificationResult string)
    (fwd : MeshPacket -> Result unit MeshError) (now : Z) (m : MeshManager) (p : MeshPacket) :
  snd (route_packet sha256 verify fwd now m p) <> [] ->
  snd (route_packet sha256 verify fwd now m p) = [p]
  /\ enabled m = true /\ payload p <> [] /\ destination p <> zero_node_id
  /\ validate p = Ok tt
  /\ (determine_routing_policy m (payload p) = routing_policy.PaymentRequired ->
      exists proof v, payment_proof p = Some proof
        /\ fst (check_replay sha256 now (replay_prevention m) proof (source p) (sequence p))
           = Ok true
        /\ verify proof = Ok v /\ verified v = true).
Proof.
  unfold route_packet.
  destruct (enabled m) eqn:Ee; simpl; [|nil_neq_nil].
  case_bool_decide as Hp; simpl; [nil_neq_nil|].
  case_bool_decide as Hz; simpl; [nil_neq_nil|].
  destruct (validate p) as [[]|e] eqn:Ev; simpl; [|nil_neq_nil].
  case_bool_decide as Hpol.
  - destruct (payment_proof p) as [proof|] eqn:Epp; simpl; [|nil_neq_nil].
    destruct (check_replay sha256 now (replay_prevention m) proof (source p) (sequence p))
      as [r rp1] eqn:Ec.
    destruct r as [b|err]; simpl; [|nil_neq_nil].
    pose proof (check_replay_ok_true _ _ _ _ _ _ _ _ Ec) as ->.
    destruct (verify proof) as [v|err] eqn:Evf; simpl; [|nil_neq_nil].
    destruct (verified v) eqn:Evv; simpl; [|nil_neq_nil].
    intros _. repeat split; auto. intros _. exists proof, v. rewrite Ec. auto.
  - simpl. intros _. repeat split; auto. intros; contradiction.
Qed.

Lemma route_packet_forward_requires_payment_witness :
  snd (route_packet hash_stand_in verify_stub forward_stub 0 gated_manager sample_packet)
    = [sample_packet]
  /\ enabled gated_manager = true /\ payload sample_packet <> []
  /\ destination sample_packet <> zero_node_id
  /\ validate sample_packet = Ok tt
  /\ (determine_routing_policy gated_manager (payload sample_packet)
        = routing_policy.PaymentRequired ->
      exists proof v, payment_proof sample_packet = Some proof
        /\ fst (check_replay hash_stand_in 0 (replay_prevention gated_manager) proof
                  (source sample_packet) (sequence sample_packet)) = Ok true
        /\ verify_stub proof = Ok v /\ verified v = true).
Proof.
  apply route_packet_forward_requires_payment. vm_compute. discriminate.
Defined.

(** [route_packet] records a proof in the replay guard before it asks the
    verifier: when the verifier rejects it, the call fails, and the same
    packet sent again while the record lives is refused as a replay. *)
Theorem route_packet_failed_verification_burns_proof (sha256 : list Z -> list Z)
    (verify : PaymentProof -> Result VerificationResult string)
    (fwd : MeshPacket -> Result unit MeshError) (now now' : Z) (m : MeshManager)
    (p : MeshPacket) (proof : PaymentProof) (v : VerificationResult) :
  enabled m = true -> payload p <> [] -> destination p <> zero_node_id ->
  validate p = Ok tt ->
  determine_routing_policy m (payload p) = routing_policy.PaymentRequired ->
  payment_proof p = Some proof ->
  fst (check_replay sha256 now (replay_prevention m) proof (source p) (sequence p)) = Ok true ->
  verify proof = Ok v -> verified v = false ->
  0 <= now -> 0 <= expiry_seconds (replay_prevention m) ->
  now + expiry_seconds (replay_prevention m) < 2^64 ->
  now' <= now + expiry_seconds (replay_prevention m) ->
  let '(r1, m1, fw1) := route_packet sha256 verify fwd now m p in
  r1 = Err (PaymentVerification (default "Payment verification failed" (vr_error v)))
  /\ fw1 = []
  /\ fst (fst (route_packet sha256 verify fwd now' m1 p))
     = Err (ReplayDetected ReplayAlreadyUsed)
  /\ snd (route_packet sha256 verify fwd now' m1 p) = [].
Proof.
  intros He Hp Hz Hv Hpol Hpp Hc Hvf Hvv H0 Hexp Hwrap Hnow'.
  destruct (check_replay sha256 now (replay_prevention m) proof (source p) (sequence p))
    as [r rp1] eqn:Ec.
  simpl in Hc. subst r.
  destruct (check_replay_ok_state _ _ _ _ _ _ _ _ Ec) as (Hh & _ & Hexp1).
  unfold route_packet at 1.
  rewrite He, (bool_decide_eq_false_2 _ Hp), (bool_decide_eq_false_2 _ Hz), Hv.
  simpl. rewrite (bool_decide_eq_true_2 _ Hpol), Hpp, Ec, Hvf, Hvv.
  split; [reflexivity|]. split; [reflexivity|].
  assert (Hkeep : replay_data (replay_cleanup_expired now' rp1) !! proof_hash sha256 proof
                  = Some {| re_timestamp := now; re_peer_id := source p;
                            re_sequence := sequence p |}).
  { apply replay_cleanup_keeps; [exact Hh|]. simpl. rewrite Hexp1.
    unfold u64_add. rewrite Z.mod_small by lia. lia. }
  assert (Hpol1 : determine_routing_policy (set_replay m rp1) (payload p)
                  = routing_policy.PaymentRequired) by exact Hpol.
  assert (Hc2 : check_replay sha256 now' rp1 proof (source p) (sequence p)
                = (Err ReplayAlreadyUsed, replay_cleanup_expired now' rp1)).
  { unfold check_replay. rewrite Hkeep. reflexivity. }
  unfold route_packet. simpl enabled. rewrite He.
  rewrite (bool_decide_eq_false_2 _ Hp), (bool_decide_eq_false_2 _ Hz), Hv.
  simpl. rewrite (bool_decide_eq_true_2 _ Hpol1), Hpp.
  simpl replay_prevention. rewrite Hc2.
  split; reflexivity.
Qed.

Lemma route_packet_failed_verification_burns_proof_witness :
  let '(r1, m1, fw1) := route_packet hash_stand_in verify_reject forward_stub 0
                          gated_manager sample_packet in
  r1 = Err (PaymentVerification (default "Payment verification failed"
                                   (Some "Payment hash does not match preimage"%string)))
  /\ fw1 = []
  /\ fst (fst (route_packet hash_stand_in verify_reject forward_stub 0 m1 sample_packet))
     = Err (ReplayDetected ReplayAlreadyUsed)
  /\ snd (route_packet hash_stand_in verify_reject forward_stub 0 m1 sample_packet) = [].
Proof.
  refine (route_packet_failed_verification_burns_proof hash_stand_in verify_reject
            forward_stub 0 0 gated_manager sample_packet long_lived_proof
            {| verified := false; vr_amount := 0; vr_timestamp := 0; vr_expires_at := None;
               vr_error := Some "Payment hash does not match preimage"%string |}
            _ _ _ _ _ _ _ _ _ _ _ _ _).
  - reflexivity.
  - discriminate.
  - vm_compute. discriminate.
  - reflexivity.
  - reflexivity.
  - reflexivity.
  - vm_compute. reflexivity.
  - reflexivity.
  - reflexivity.
  - lia.
  - simpl. lia.
  - simpl. lia.
  - simpl. lia.
Defined.

(** ** Policy engine *)

(** A buffer that [is_mesh_packet] accepts (it starts with the magic
    ["MESH"]) is classified [MeshPacket] by [detect_protocol], so an
    enabled manager asks for payment for it unless its mode is [Open]. *)
Theorem mesh_framed_payload_policy (m : MeshManager) (data : list Z) :
  is_mesh_packet data = true ->
  routing_policy.detect_protocol data = routing_policy.MeshPacket
  /\ determine_routing_policy m data
     = if enabled m then
         match mode m with
         | routing_policy.Open => routing_policy.Free
         | _ => routing_policy.PaymentRequired
         end
       else routing_policy.Free.
Proof.
  intros H.
  destruct data as [|a [|b [|c [|d rest]]]]; try discriminate.
  unfold is_mesh_packet in H. simpl in H.
  apply bool_decide_eq_true in H. injection H as -> -> -> ->.
  assert (Hd : routing_policy.detect_protocol (0x4D :: 0x45 :: 0x53 :: 0x48 :: rest)
               = routing_policy.MeshPacket).
  { vm_compute. reflexivity. }
  split; [exact Hd|].
  unfold determine_routing_policy. rewrite Hd.
  destruct (enabled m), (mode m); reflexivity.
Qed.

Lemma mesh_framed_payload_policy_witness :
  routing_policy.detect_protocol (payload sample_packet) = routing_policy.MeshPacket
  /\ determine_routing_policy gated_manager (payload sample_packet)
     = if enabled gated_manager then
         match mode gated_manager with
         | routing_policy.Open => routing_policy.Free
         | _ => routing_policy.PaymentRequired
         end
       else routing_policy.Free.
Proof.
  apply mesh_framed_payload_policy. reflexivity.
Defined.

(** [detect_protocol] reads the command from bytes 4..12 only, 8 of the
    header's 12 command bytes: behind any of the three network magics, a
    listed Bitcoin or governance command is recognised when it has at most
    8 characters, and a longer one (["getheaders"], ["sendheaders"],
    ["getbanlist"], ...) makes the message [Unknown]. *)
Theorem detect_protocol_header (magic : list Z) (c : string) (rest : list Z) :
  In magic network_magics ->
  (In c routing_policy.bitcoin_commands ->
   routing_policy.detect_protocol (magic ++ command_field c ++ rest)
   = if (String.length c <=? 8)%nat then routing_policy.BitcoinP2P
     else routing_policy.Unknown)
  /\ (In c routing_policy.governance_commands ->
      routing_policy.detect_protocol (magic ++ command_field c ++ rest)
      = if (String.length c <=? 8)%nat then routing_policy.CommonsGovernance
        else routing_policy.Unknown).
Proof.
  intros Hm. split; intros Hc;
    simpl in Hm; repeat destruct Hm as [<-|Hm]; try contradiction;
    simpl in Hc; repeat destruct Hc as [<-|Hc]; try contradiction;
    vm_compute; reflexivity.
Qed.

Lemma detect_protocol_header_witness :
  (In "sendheaders"%string routing_policy.bitcoin_commands ->
   routing_policy.detect_protocol
     (le_bytes 4 0xd9b4bef9 ++ command_field "sendheaders" ++ [])
   = if (String.length "sendheaders" <=? 8)%nat then routing_policy.BitcoinP2P
     else routing_policy.Unknown)
  /\ (In "sendheaders"%string routing_policy.governance_commands ->
      routing_policy.detect_protocol
        (le_bytes 4 0xd9b4bef9 ++ command_field "sendheaders" ++ [])
      = if (String.length "sendheaders" <=? 8)%nat then routing_policy.CommonsGovernance
        else routing_policy.Unknown).
Proof.
  apply detect_protocol_header. simpl. left. reflexivity.
Defined.

Lemma ascii_lower_upper (c : ascii) :
  routing_policy.ascii_lower (ascii_upper c) = routing_policy.ascii_lower c.
Proof. destruct c as [[] [] [] [] [] [] [] []]; reflexivity. Qed.

Lemma ascii_lower_idem (c : ascii) :
  routing_policy.ascii_lower (routing_policy.ascii_lower c) = routing_policy.ascii_lower c.
Proof. destruct c as [[] [] [] [] [] [] [] []]; reflexivity. Qed.

(** [MeshMode::from] ignores ASCII case: upper- or lower-casing the string
    first gives the same mode. *)
Theorem MeshMode_from_case_insensitive (s : string) :
  routing_policy.MeshMode_from (to_uppercase s) = routing_policy.MeshMode_from s
  /\ routing_policy.MeshMode_from (routing_policy.to_lowercase s)
     = routing_policy.MeshMode_from s.
Proof.
  unfold routing_policy.MeshMode_from, routing_policy.to_lowercase, to_uppercase.
  rewrite !list_ascii_of_string_of_list_ascii, !map_map.
  rewrite (map_ext _ _ ascii_lower_upper), (map_ext _ _ ascii_lower_idem).
  split; reflexivity.
Qed.

(** ** Routing table: peers, cache, sweep, fees *)

(** [remove_direct_peer] never removes a routing entry: for a peer that
    [add_direct_peer] installed (its entry is direct-only) the call blocks
    forever, and whenever it does return, only the peer's address is
    gone; the routes and the route cache are as they were. *)
Theorem remove_direct_peer_never_deletes_route (now : Z) (t : RoutingTable) (n : NodeId)
    (address : list Z) :
  remove_direct_peer (add_direct_peer now t n address) n = Deadlock
  /\ (forall t', remove_direct_peer t n = Done t' ->
      routes t' = routes t /\ route_cache t' = route_cache t
      /\ direct_peers t' = delete n (direct_peers t)).
Proof.
  split.
  - unfold remove_direct_peer, add_direct_peer. simpl.
    rewrite lookup_insert_eq. reflexivity.
  - unfold remove_direct_peer.
    destruct (routes t !! n) as [e|].
    + destruct (direct_address e), (next_hop e); try discriminate;
        intros t' H; injection H as <-; auto.
    + intros t' H; injection H as <-; auto.
Qed.

Lemma remove_direct_peer_never_deletes_route_witness :
  remove_direct_peer (add_direct_peer 0 (RoutingTable_new 3600) node_a [127; 0; 0; 1]) node_a
    = Deadlock
  /\ (forall t', remove_direct_peer (RoutingTable_new 3600) node_a = Done t' ->
      routes t' = routes (RoutingTable_new 3600)
      /\ route_cache t' = route_cache (RoutingTable_new 3600)
      /\ direct_peers t' = delete node_a (direct_peers (RoutingTable_new 3600))).
Proof.
  exact (remove_direct_peer_never_deletes_route 0 (RoutingTable_new 3600) node_a
           [127; 0; 0; 1]).
Defined.

(** After [cleanup_expired] the route cache is empty, so [find_route]
    answers only from an entry of the table that is still fresh at the
    time of the lookup. *)
Theorem rt_cleanup_find_route_fresh (now now' : Z) (t : RoutingTable) (n : NodeId)
    (r : list NodeId) :
  fst (find_route now' (rt_cleanup_expired now t) n) = Some r ->
  exists e, routes t !! n = Some e /\ route_path e = r
            /\ now' <= u64_add (last_updated e) (route_expiry_seconds t).
Proof.
  unfold find_route. simpl. rewrite lookup_empty.
  destruct (filter _ (routes t) !! n) as [e|] eqn:He; [|discriminate].
  apply map_lookup_filter_Some in He as [He _].
  destruct (now' <=? u64_add (last_updated e) (route_expiry_seconds t)) eqn:Hle;
    [|discriminate].
  simpl. intros H. injection H as <-. exists e. split; [exact He|].
  split; [reflexivity|]. apply Z.leb_le. exact Hle.
Qed.

Lemma rt_cleanup_find_route_fresh_witness :
  exists e, routes (add_direct_peer 0 (RoutingTable_new 3600) node_a [127; 0; 0; 1])
              !! node_a = Some e
            /\ route_path e = [node_a]
            /\ 3600 <= u64_add (last_updated e)
                         (route_expiry_seconds
                            (add_direct_peer 0 (RoutingTable_new 3600) node_a [127; 0; 0; 1])).
Proof.
  apply (rt_cleanup_find_route_fresh 10 3600).
  vm_compute. reflexivity.
Defined.

(** Below the [u64] wrap the fee split never hands out more than the
    total: destination and source shares plus one intermediate share per
    intermediate hop stay within [base_fee_sats]. *)
Theorem calculate_routing_fee_within_total (route : list NodeId) (fee : Z) :
  0 <= fee -> 60 * fee < 2^64 ->
  let f := calculate_routing_fee route fee in
  fee_destination f + fee_source f
    + fee_intermediate f * Z.of_nat (fee_hop_count f - 2) <= fee_total f.
Proof.
  intros H0 H60. cbv zeta.
  destruct (calculate_routing_fee_no_wrap route fee H0 H60) as (Hd & Hs & Hi).
  rewrite Hd, Hs, Hi. simpl.
  pose proof (Z.mul_div_le (60 * fee) 100 ltac:(lia)).
  pose proof (Z.mul_div_le (10 * fee) 100 ltac:(lia)).
  pose proof (Z.mul_div_le (30 * fee) 100 ltac:(lia)).
  pose proof (Z.div_pos (30 * fee) 100 ltac:(lia) ltac:(lia)).
  destruct (2 <? length route)%nat eqn:Hl.
  - apply Nat.ltb_lt in Hl.
    pose proof (Z.mul_div_le (30 * fee / 100) (Z.of_nat (length route - 2)) ltac:(lia)).
    lia.
  - lia.
Qed.

Lemma calculate_routing_fee_within_total_witness :
  let f := calculate_routing_fee [node_a; node_b; node_c] 1000 in
  fee_destination f + fee_source f
    + fee_intermediate f * Z.of_nat (fee_hop_count f - 2) <= fee_total f.
Proof.
  apply calculate_routing_fee_within_total; lia.
Defined.

(** ** Route discovery: advertisements, responses, sweeps *)

Lemma fold_add_route_lookup (now : Z) (source n : NodeId)
    (rs : list (NodeId * NodeId * Z * Z)) (t : RoutingTable) :
  routes (fold_left (fun t re => add_route t (advertised_entry now source re)) rs t) !! n
  = match last_advertised n rs with
    | Some re => Some (advertised_entry now source re)
    | None => routes t !! n
    end.
Proof.
  revert t. induction rs as [|re rs IH]; intros t; [reflexivity|].
  simpl. rewrite IH.
  destruct (last_advertised n rs) as [x|]; [reflexivity|].
  destruct re as [[[dst hop] cost] hc]. simpl.
  case_bool_decide as Hd.
  - subst dst. apply lookup_insert_eq.
  - apply lookup_insert_ne. exact Hd.
Qed.

(** After [handle_route_advertisement], the route to [n] is the one built
    from the last advertised entry for [n] (path [[source; next_hop; n]],
    no direct address, quality 0.7), replacing whatever was there, a
    direct peer's entry included; other destinations are untouched. *)
Theorem handle_route_advertisement_lookup (now : Z) (d : RouteDiscovery)
    (rs : list (NodeId * NodeId * Z * Z)) (source from_node n : NodeId) :
  get_route (routing_table (handle_route_advertisement now d (RouteAdvertisement rs source)
                              from_node)) n
  = match last_advertised n rs with
    | Some re => Some (advertised_entry now source re)
    | None => get_route (routing_table d) n
    end.
Proof.
  unfold handle_route_advertisement, get_route. simpl.
  apply fold_add_route_lookup.
Qed.

(** A response to a pending request, with a route of at least two nodes,
    stores a route to the destination the response names (next hop: the
    route's second node) and closes that request; the other pending
    requests stay. *)
Theorem handle_route_response_installs_route (now : Z) (d : RouteDiscovery)
    (dest src : NodeId) (rid : Z) (r0 hop : NodeId) (rest : list NodeId) (cost : Z)
    (from_node : NodeId) (req : PendingRequest) :
  pending_requests d !! rid = Some req ->
  exists d', handle_route_response now d
               (RouteResponse dest src rid (r0 :: hop :: rest) cost) from_node = Returned d'
    /\ pending_requests d' !! rid = None
    /\ (forall rid', rid' <> rid -> pending_requests d' !! rid' = pending_requests d !! rid')
    /\ get_route (routing_table d') dest
       = Some {| node_id := dest; direct_address := None; next_hop := Some hop;
                 route_path := r0 :: hop :: rest; route_cost := cost;
                 last_updated := now; quality_score := 8 # 10 |}.
Proof.
  intros Hr. unfold handle_route_response. rewrite Hr. simpl.
  eexists. split; [reflexivity|]. simpl. split; [apply lookup_delete_eq|]. split.
  - intros rid' Hne. rewrite lookup_delete_ne by congruence.
    apply lookup_insert_ne. congruence.
  - unfold get_route. simpl. apply lookup_insert_eq.
Qed.

Lemma handle_route_response_installs_route_witness :
  exists d', handle_route_response 5 discovery_with_request
               (RouteResponse node_c node_a 1 [node_a; node_b; node_c] 200) node_b
             = Returned d'
    /\ pending_requests d' !! 1 = None
    /\ (forall rid', rid' <> 1 ->
          pending_requests d' !! rid' = pending_requests discovery_with_request !! rid')
    /\ get_route (routing_table d') node_c
       = Some {| node_id := node_c; direct_address := None; next_hop := Some node_b;
                 route_path := [node_a; node_b; node_c]; route_cost := 200;
                 last_updated := 5; quality_score := 8 # 10 |}.
Proof.
  refine (handle_route_response_installs_route 5 discovery_with_request node_c node_a 1
            node_a node_b [node_c] 200 node_b _ _).
  vm_compute. reflexivity.
Defined.

(** Once [cleanup_expired] has swept a pending request, a response to it
    is ignored, whatever route it carries (one too short to index, which
    would make the handler panic on a live request, included). *)
Theorem handle_route_response_after_sweep_ignored (now t : Z) (d : RouteDiscovery)
    (dest src : NodeId) (rid : Z) (rt : list NodeId) (cost : Z) (from_node : NodeId)
    (req : PendingRequest) :
  pending_requests d !! rid = Some req ->
  u64_add (pr_timestamp req) (timeout_seconds d) < t ->
  handle_route_response now (disc_cleanup_expired t d)
    (RouteResponse dest src rid rt cost) from_node
  = Returned (disc_cleanup_expired t d).
Proof.
  intros Hr Hexp. unfold handle_route_response.
  assert (Hn : pending_requests (disc_cleanup_expired t d) !! rid = None).
  { simpl. apply map_lookup_filter_None_2. right. intros x Hx. simpl.
    rewrite Hr in Hx. injection Hx as <-. intros H. apply H. exact Hexp. }
  rewrite Hn. reflexivity.
Qed.

Lemma handle_route_response_after_sweep_ignored_witness :
  handle_route_response 40 (disc_cleanup_expired 31 discovery_with_request)
    (RouteResponse node_c node_a 1 [node_c] 0) node_b
  = Returned (disc_cleanup_expired 31 discovery_with_request).
Proof.
  refine (handle_route_response_after_sweep_ignored 40 31 discovery_with_request
            node_c node_a 1 [node_c] 0 node_b _ _ _).
  - vm_compute. reflexivity.
  - vm_compute. reflexivity.
Defined.

(** The discovery round trip: with no route to [dest], [discover_route]
    returns [None] and opens request [counter + 1]; a response to that
    request installs the route, and [discover_route] then returns it
    while it is fresh. *)
Theorem discover_route_round_trip (now now2 now3 : Z) (d : RouteDiscovery)
    (dest src hop from_node : NodeId) (rest : list NodeId) (cost : Z) :
  route_cache (routing_table d) !! dest = None ->
  routes (routing_table d) !! dest = None ->
  0 <= now2 -> 0 <= route_expiry_seconds (routing_table d) ->
  now2 + route_expiry_seconds (routing_table d) < 2^64 ->
  now3 <= now2 + route_expiry_seconds (routing_table d) ->
  let rid := u64_add (request_id_counter d) 1 in
  let '(r1, d1) := discover_route now d dest src in
  r1 = None
  /\ exists d2, handle_route_response now2 d1
                  (RouteResponse dest src rid (src :: hop :: rest) cost) from_node
                = Returned d2
       /\ fst (discover_route now3 d2 dest src) = Some (src :: hop :: rest).
Proof.
  intros Hc Hr H0 Hexp Hwrap Hle. cbv zeta.
  unfold discover_route at 1, find_route at 1. rewrite Hc, Hr. simpl.
  rewrite Hr. split; [reflexivity|].
  unfold handle_route_response. simpl. rewrite lookup_insert_eq. simpl.
  eexists. split; [reflexivity|].
  unfold discover_route, find_route. simpl. rewrite Hc, lookup_insert_eq. simpl.
  unfold u64_add. rewrite Z.mod_small by lia.
  rewrite (proj2 (Z.leb_le _ _)) by lia. reflexivity.
Qed.

Lemma discover_route_round_trip_witness :
  let d := {| pending_requests := ∅; request_id_counter := 0;
              routing_table := RoutingTable_new 3600; disc_max_hops := 10;
              timeout_seconds := 30 |} in
  let rid := u64_add (request_id_counter d) 1 in
  let '(r1, d1) := discover_route 0 d node_c node_a in
  r1 = None
  /\ exists d2, handle_route_response 5 d1
                  (RouteResponse node_c node_a rid [node_a; node_b; node_c] 200) node_b
                = Returned d2
       /\ fst (discover_route 100 d2 node_c node_a) = Some [node_a; node_b; node_c].
Proof.
  refine (discover_route_round_trip 0 5 100
            {| pending_requests := ∅; request_id_counter := 0;
               routing_table := RoutingTable_new 3600; disc_max_hops := 10;
               timeout_seconds := 30 |} node_c node_a node_b node_b [node_c] 200
            _ _ _ _ _ _).
  - reflexivity.
  - reflexivity.
  - lia.
  - simpl. lia.
  - simpl. lia.
  - simpl. lia.
Defined.

(** ** Replay guard: per-peer ordering over a run *)

Lemma check_replay_ok_used (sha256 : list Z -> list Z) (now : Z) (rp rp1 : ReplayPrevention)
    (proof : PaymentProof) (peer : NodeId) (seq : Z) (b : bool) :
  check_replay sha256 now rp proof peer seq = (Ok b, rp1) ->
  used_sequences rp1 = <[peer := seq]> (used_sequences rp)
  /\ sequence_check (used_sequences rp !! peer) seq = None.
Proof.
  unfold check_replay.
  destruct (replay_data (replay_cleanup_expired now rp) !! proof_hash sha256 proof);
    [discriminate|].
  destruct (sequence_check _ seq) eqn:Hs; [discriminate|].
  destruct (is_expired now proof); [discriminate|].
  intros H. inversion H; subst. simpl. auto.
Qed.

(** Along any run of [check_replay] and [cleanup_expired] calls on one
    guard, the sequence numbers accepted from a peer strictly increase,
    and all exceed the one the guard held for that peer at the start;
    sweeps never reset them. *)
Theorem accepted_seqs_increasing (sha256 : list Z -> list Z) (peer : NodeId)
    (rp : ReplayPrevention) (ops : list ReplayOp) :
  StronglySorted Z.lt (accepted_seqs sha256 peer rp ops)
  /\ (forall last, used_sequences rp !! peer = Some last ->
      Forall (Z.lt last) (accepted_seqs sha256 peer rp ops)).
Proof.
  revert rp. induction ops as [|o ops IH]; intros rp.
  { split; [constructor | intros; constructor]. }
  destruct o as [now proof p seq | now]; simpl.
  2:{ exact (IH (replay_cleanup_expired now rp)). }
  destruct (check_replay sha256 now rp proof p seq) as [r rp1] eqn:Ec.
  destruct r as [b|e].
  - destruct (check_replay_ok_used _ _ _ _ _ _ _ _ Ec) as [Hu Hs].
    destruct (IH rp1) as [Hsorted Hall].
    case_bool_decide as Hp.
    + subst p. simpl.
      assert (Hgt : Forall (Z.lt seq) (accepted_seqs sha256 peer rp1 ops)).
      { apply Hall. rewrite Hu. apply lookup_insert_eq. }
      split.
      * constructor; [exact Hsorted | exact Hgt].
      * intros last Hlast. rewrite Hlast in Hs. simpl in Hs.
        destruct (seq <=? last) eqn:Hle; [discriminate|]. apply Z.leb_gt in Hle.
        constructor; [exact Hle|].
        eapply Forall_impl; [exact Hgt|]. simpl. intros x Hx. lia.
    + simpl. split; [exact Hsorted|]. intros last Hlast. apply Hall.
      rewrite Hu, lookup_insert_ne by congruence. exact Hlast.
  - pose proof (check_replay_err_state sha256 now rp rp1 proof p seq e Ec) as ->.
    simpl. exact (IH (replay_cleanup_expired now rp)).
Qed.

(** ** The bincode codec: decoding what was encoded *)

Lemma bind_some {A B} (m : Parser A) (k : A -> Parser B) (s s' : list Z) (a : A) :
  m s = Some (a, s') -> mbind k m s = k a s'.
Proof. intros H. unfold mbind, parser_bind. rewrite H. reflexivity. Qed.

Lemma mret_parser {A} (a : A) (s : list Z) : (mret a : Parser A) s = Some (a, s).
Proof. reflexivity. Qed.

Lemma p_take_app (n : nat) (l r : list Z) :
  length l = n -> p_take n (l ++ r) = Some (l, r).
Proof.
  intros <-. induction l as [|x l IH]; [reflexivity|]. simpl. rewrite IH. reflexivity.
Qed.

Lemma length_le_bytes (n : nat) (x : Z) : length (le_bytes n x) = n.
Proof. revert x. induction n; intros x; simpl; [reflexivity | rewrite IHn; reflexivity]. Qed.

Lemma le_value_le_bytes (n : nat) (x : Z) :
  0 <= x < 2^(8 * Z.of_nat n) -> le_value (le_bytes n x) = x.
Proof.
  revert x. induction n as [|n IH]; intros x Hx.
  - simpl in Hx. simpl. lia.
  - rewrite Nat2Z.inj_succ, Z.mul_succ_r, Z.pow_add_r in Hx by lia.
    simpl. rewrite IH.
    + pose proof (Z.div_mod x 256 ltac:(lia)). lia.
    + split; [apply Z.div_pos; lia|].
      apply Z.div_lt_upper_bound; [lia|]. change (2^8) with 256 in Hx. lia.
Qed.

Lemma p_u8_rt (x : Z) (r : list Z) : p_u8 (enc_u8 x ++ r) = Some (x, r).
Proof.
  unfold p_u8. rewrite (bind_some _ _ _ r [x]) by reflexivity.
  rewrite mret_parser. unfold le_value. simpl. do 2 f_equal. lia.
Qed.

Lemma p_u32_rt (x : Z) (r : list Z) : u32_ok x = true -> p_u32 (enc_u32 x ++ r) = Some (x, r).
Proof.
  intros H. unfold u32_ok in H. apply andb_true_iff in H as [H1 H2].
  apply Z.leb_le in H1. apply Z.ltb_lt in H2.
  unfold p_u32, enc_u32. rewrite (bind_some _ _ _ r (le_bytes 4 x)).
  - rewrite le_value_le_bytes by (simpl; lia). reflexivity.
  - apply p_take_app. apply length_le_bytes.
Qed.

Lemma p_u64_rt (x : Z) (r : list Z) : u64_ok x = true -> p_u64 (enc_u64 x ++ r) = Some (x, r).
Proof.
  intros H. unfold u64_ok in H. apply andb_true_iff in H as [H1 H2].
  apply Z.leb_le in H1. apply Z.ltb_lt in H2.
  unfold p_u64, enc_u64. rewrite (bind_some _ _ _ r (le_bytes 8 x)).
  - rewrite le_value_le_bytes by (simpl; lia). reflexivity.
  - apply p_take_app. apply length_le_bytes.
Qed.

Lemma p_array32_rt (b r : list Z) : array32_ok b = true -> p_array32 (enc_array b ++ r) = Some (b, r).
Proof. intros H. apply Nat.eqb_eq in H. apply p_take_app. exact H. Qed.

Lemma p_count_rt {A} (pa : Parser A) (f : A -> list Z) (l : list A) (rest : list Z) :
  (forall x r, In x l -> pa (f x ++ r) = Some (x, r)) ->
  p_count (length l) pa (flat_map f l ++ rest) = Some (l, rest).
Proof.
  induction l as [|x l IH]; intros Hpa; [reflexivity|].
  simpl. rewrite <- app_assoc.
  rewrite (bind_some _ _ _ (flat_map f l ++ rest) x) by (apply Hpa; left; reflexivity).
  cbv beta.
  rewrite (bind_some _ _ _ rest l) by (apply IH; intros; apply Hpa; right; assumption).
  reflexivity.
Qed.

Lemma length_flat_map_ge {A} (f : A -> list Z) (l : list A) :
  (forall x, In x l -> f x <> []) -> (length l <= length (flat_map f l))%nat.
Proof.
  induction l as [|x l IH]; intros Hne; simpl; [lia|].
  rewrite length_app. specialize (IH (fun y Hy => Hne y (or_intror Hy))).
  destruct (f x) eqn:E; [exfalso; apply (Hne x); [left; reflexivity | exact E]|].
  simpl. lia.
Qed.

Lemma p_vec_rt {A} (pa : Parser A) (f : A -> list Z) (l : list A) (rest : list Z) :
  (forall x r, In x l -> pa (f x ++ r) = Some (x, r)) ->
  (forall x, In x l -> f x <> []) -> len_ok l = true ->
  p_vec pa (enc_vec f l ++ rest) = Some (l, rest).
Proof.
  intros Hpa Hne Hlen. unfold p_vec, enc_vec. rewrite <- app_assoc.
  rewrite (bind_some _ _ _ (flat_map f l ++ rest) (Z.of_nat (length l))).
  2:{ apply p_u64_rt. unfold u64_ok, len_ok in *. apply andb_true_iff. split; [|exact Hlen].
      apply Z.leb_le. lia. }
  cbv beta. unfold p_elems.
  pose proof (length_flat_map_ge f l Hne).
  rewrite (proj2 (Z.ltb_ge _ _)) by (rewrite length_app; lia).
  rewrite Nat2Z.id. apply p_count_rt. exact Hpa.
Qed.

Lemma string_of_bytes_string_bytes (s : string) : string_of_bytes (string_bytes s) = s.
Proof.
  unfold string_of_bytes, string_bytes. rewrite map_map.
  rewrite (map_ext _ (fun c => c)) by (intros c; rewrite N2Z.id; apply ascii_N_embedding).
  rewrite map_id. apply string_of_list_ascii_of_string.
Qed.

Lemma p_string_rt (s : string) (r : list Z) :
  string_ok s = true -> p_string (enc_string s ++ r) = Some (s, r).
Proof.
  intros H. unfold string_ok in H. apply andb_true_iff in H as [Hu Hl].
  unfold p_string, enc_string. rewrite <- app_assoc.
  rewrite (bind_some _ _ _ (string_bytes s ++ r) (Z.of_nat (length (string_bytes s)))).
  2:{ apply p_u64_rt. unfold u64_ok, len_ok in *. apply andb_true_iff. split; [|exact Hl].
      apply Z.leb_le. lia. }
  cbv beta. unfold p_utf8.
  rewrite (proj2 (Z.ltb_ge _ _)) by (rewrite length_app; lia).
  rewrite Nat2Z.id, p_take_app by reflexivity. rewrite Hu.
  rewrite string_of_bytes_string_bytes. reflexivity.
Qed.

Lemma p_option_rt {A} (pa : Parser A) (f : A -> list Z) (o : option A) (r : list Z) :
  (forall x r', o = Some x -> pa (f x ++ r') = Some (x, r')) ->
  p_option pa (enc_option f o ++ r) = Some (o, r).
Proof.
  intros Hpa. unfold p_option. destruct o as [x|].
  - change (enc_option f (Some x) ++ r) with (enc_u8 1 ++ (f x ++ r)).
    rewrite (bind_some _ _ _ (f x ++ r) 1) by apply p_u8_rt. cbv beta. simpl (1 =? 0).
    simpl (1 =? 1). cbv iota.
    rewrite (bind_some _ _ _ r x) by (apply Hpa; reflexivity). reflexivity.
  - change (enc_option f None ++ r) with (enc_u8 0 ++ r).
    rewrite (bind_some _ _ _ r 0) by apply p_u8_rt. reflexivity.
Qed.

Lemma p_packet_type_rt (t : PacketType) (r : list Z) :
  p_packet_type (enc_u32 (packet_type_index t) ++ r) = Some (t, r).
Proof.
  unfold p_packet_type.
  rewrite (bind_some _ _ _ r (packet_type_index t))
    by (apply p_u32_rt; destruct t; reflexivity).
  destruct t; reflexivity.
Qed.

Lemma p_payment_proof_rt (q : PaymentProof) (r : list Z) :
  proof_ok q = true -> p_payment_proof (enc_payment_proof q ++ r) = Some (q, r).
Proof.
  intros H. unfold p_payment_proof.
  destruct q as [inv pre amt ts exp | cov idx merkle amt ts]; simpl in H;
    repeat rewrite andb_true_iff in H; unfold enc_payment_proof; rewrite <- !app_assoc.
  - destruct H as [[[[Hi Hp] Ha] Ht] He].
    rewrite (bind_some _ _ _ _ 0) by (apply p_u32_rt; reflexivity). cbv beta.
    simpl (0 =? 0). cbv iota.
    rewrite (bind_some _ _ _ _ inv) by (apply p_string_rt; exact Hi). cbv beta.
    rewrite (bind_some _ _ _ _ pre) by (apply p_array32_rt; exact Hp). cbv beta.
    rewrite (bind_some _ _ _ _ amt) by (apply p_u64_rt; exact Ha). cbv beta.
    rewrite (bind_some _ _ _ _ ts) by (apply p_u64_rt; exact Ht). cbv beta.
    rewrite <- (app_nil_r (enc_u64 exp)), <- app_assoc.
    rewrite (bind_some _ _ _ _ exp) by (apply p_u64_rt; exact He). reflexivity.
  - destruct H as [[[[[Hc Hi] Hm] Hm32] Ha] Ht].
    rewrite (bind_some _ _ _ _ 1) by (apply p_u32_rt; reflexivity). cbv beta.
    simpl (1 =? 0). simpl (1 =? 1). cbv iota.
    rewrite (bind_some _ _ _ (enc_u32 idx ++ enc_vec enc_array merkle ++ enc_u64 amt
                                ++ enc_u64 ts ++ r) cov)
      by (apply p_vec_rt; [intros; apply p_u8_rt | intros; discriminate | exact Hc]).
    cbv beta.
    rewrite (bind_some _ _ _ _ idx) by (apply p_u32_rt; exact Hi). cbv beta.
    rewrite (bind_some _ _ _ (enc_u64 amt ++ enc_u64 ts ++ r) merkle).
    2:{ apply p_vec_rt; [| | exact Hm].
        - intros x r' Hx. apply p_array32_rt. rewrite forallb_forall in Hm32. auto.
        - intros x Hx E. rewrite forallb_forall in Hm32. specialize (Hm32 x Hx).
          unfold array32_ok in Hm32. unfold enc_array in E. rewrite E in Hm32. discriminate. }
    cbv beta.
    rewrite (bind_some _ _ _ _ amt) by (apply p_u64_rt; exact Ha). cbv beta.
    rewrite <- (app_nil_r (enc_u64 ts)), <- app_assoc.
    rewrite (bind_some _ _ _ _ ts) by (apply p_u64_rt; exact Ht). reflexivity.
Qed.

Lemma p_metadata_rt (m : PacketMetadata) (r : list Z) :
  metadata_ok m = true -> p_metadata (enc_metadata m ++ r) = Some (m, r).
Proof.
  intros H. unfold metadata_ok in H. repeat rewrite andb_true_iff in H.
  destruct H as [[Hp Hl] Hf].
  unfold p_metadata, enc_metadata. rewrite <- app_assoc.
  rewrite (bind_some _ _ _ (enc_vec (fun kv : string * string => enc_string kv.1 ++ enc_string kv.2)
                              (fields m) ++ r) (protocol m)).
  2:{ apply p_option_rt. intros x r' Hx. rewrite Hx in Hp. apply p_string_rt. exact Hp. }
  cbv beta.
  rewrite (bind_some _ _ _ r (fields m)).
  2:{ apply p_vec_rt; [| | exact Hl].
      - intros [k v] r' Hkv. rewrite forallb_forall in Hf. specialize (Hf _ Hkv).
        simpl in Hf |- *. apply andb_true_iff in Hf as [Hk Hv].
        rewrite <- app_assoc.
        rewrite (bind_some _ _ _ (enc_string v ++ r') k) by (apply p_string_rt; exact Hk).
        cbv beta.
        rewrite (bind_some _ _ _ r' v) by (apply p_string_rt; exact Hv). reflexivity.
      - intros [k v] _. unfold enc_string, enc_u64. simpl. discriminate. }
  destruct m; reflexivity.
Qed.

(** Decoding reads back every packet the encoder writes, leaving what
    follows untouched, as long as its values are ones bincode can carry
    ([packet_ok]: 32-byte ids, bytes, u32/u64 ranges, UTF-8 strings). *)
Theorem p_packet_round_trip (p : MeshPacket) (rest : list Z) :
  packet_ok p = true -> p_packet (enc_packet p ++ rest) = Some (p, rest).
Proof.
  intros H. unfold packet_ok in H. repeat rewrite andb_true_iff in H.
  destruct H as [[[[[[[[Hs Hd] Hrl] Hr32] Hseq] Hts] Hpp] Hpl] Hmd].
  unfold p_packet, enc_packet. rewrite <- !app_assoc.
  rewrite (bind_some _ _ _ _ (version p)) by apply p_u8_rt. cbv beta.
  rewrite (bind_some _ _ _ _ (packet_type p)) by apply p_packet_type_rt. cbv beta.
  rewrite (bind_some _ _ _ _ (source p)) by (apply p_array32_rt; exact Hs). cbv beta.
  rewrite (bind_some _ _ _ _ (destination p)) by (apply p_array32_rt; exact Hd). cbv beta.
  rewrite (bind_some _ _ _ (enc_u64 (sequence p) ++ enc_u64 (timestamp p)
                            ++ enc_option enc_payment_proof (payment_proof p)
                            ++ enc_vec enc_u8 (payload p)
                            ++ enc_option enc_metadata (metadata p) ++ rest) (route p)).
  2:{ apply p_vec_rt; [| | exact Hrl].
      - intros x r' Hx. apply p_array32_rt. rewrite forallb_forall in Hr32. auto.
      - intros x Hx E. rewrite forallb_forall in Hr32. specialize (Hr32 x Hx).
        unfold array32_ok in Hr32. unfold enc_array in E. rewrite E in Hr32. discriminate. }
  cbv beta.
  rewrite (bind_some _ _ _ _ (sequence p)) by (apply p_u64_rt; exact Hseq). cbv beta.
  rewrite (bind_some _ _ _ _ (timestamp p)) by (apply p_u64_rt; exact Hts). cbv beta.
  rewrite (bind_some _ _ _ (enc_vec enc_u8 (payload p)
                            ++ enc_option enc_metadata (metadata p) ++ rest) (payment_proof p)).
  2:{ apply p_option_rt. intros q r' Hq. rewrite Hq in Hpp.
      apply p_payment_proof_rt. exact Hpp. }
  cbv beta.
  rewrite (bind_some _ _ _ (enc_option enc_metadata (metadata p) ++ rest) (payload p)).
  2:{ apply p_vec_rt; [intros; apply p_u8_rt | intros; discriminate | exact Hpl]. }
  cbv beta.
  rewrite (bind_some _ _ _ rest (metadata p)).
  2:{ apply p_option_rt. intros md r' Hm. rewrite Hm in Hmd.
      apply p_metadata_rt. exact Hmd. }
  destruct p; reflexivity.
Qed.

Lemma p_packet_round_trip_witness :
  p_packet (enc_packet sample_packet ++ [0xFF]) = Some (sample_packet, [0xFF]).
Proof.
  apply p_packet_round_trip. vm_compute. reflexivity.
Defined.
